(** * Reference-integrity plugin: a shallow embedding and its properties

    The development follows [src/index.ts] (the typed implementation) and
    [index.js] (the earlier JavaScript implementation). The middleware and
    the two manual methods have the same text in both files; the two
    functions that differ, [getRefFields] and [validateReference], are
    embedded twice, the JavaScript ones in [Module Legacy].

    - JavaScript objects used as dictionaries (a document's fields, the
      [data] argument, an update payload) are finite maps;
    - [schema.paths], which the code walks with [for ... in], is an
      association list in iteration order;
    - asynchronous functions are computations in a small monad that records
      every call made to the driver and either returns or throws. *)

From stdpp Require Import gmap strings list.
From Stdlib Require Import DecimalString.

Set Warnings "-register-all,-clear-no-such-hyp".
Open Scope string_scope.
Open Scope list_scope.

(** ** Values *)

(** An [ObjectId] is a JavaScript object: [oid_addr] is its identity (what
    [===] and [Set] compare), [oid_hex] is what [toString] prints and what the
    store compares. Two values are the same object when they agree on
    both. *)
Record ObjectId := { oid_addr : nat; oid_hex : string }.

Global Instance ObjectId_eq_dec : EqDecision ObjectId.
Proof. solve_decision. Defined.

Definition toString (o : ObjectId) : string := oid_hex o.

(** The values a field, a [data] entry or a payload entry can hold:
    [Types.ObjectId | Types.ObjectId[] | null | undefined], and a plain
    object (an update operator such as [$set] maps to one). *)
Inductive Value :=
| VUndefined
| VNull
| VId (o : ObjectId)
| VArr (items : list ObjectId)
| VObj (props : gmap string Value).

(** [!value] is [negb (truthy value)]: every object, an empty array
    included, is truthy. *)
Definition truthy (v : Value) : bool :=
  match v with
  | VUndefined | VNull => false
  | VId _ | VArr _ | VObj _ => true
  end.

(** [obj[key]]: a missing key reads as [undefined]. *)
Definition get (obj : gmap string Value) (key : string) : Value :=
  default VUndefined (obj !! key).

Fixpoint join (sep : string) (l : list string) : string :=
  match l with
  | [] => ""
  | [x] => x
  | x :: r => x +:+ sep +:+ join sep r
  end.

(** What a template literal prints for [${value}]. *)
Definition show (v : Value) : string :=
  match v with
  | VUndefined => "undefined"
  | VNull => "null"
  | VId o => toString o
  | VArr items => join "," (toString <$> items)
  | VObj _ => "[object Object]"
  end.

Definition show_nat (n : nat) : string :=
  NilZero.string_of_uint (Nat.to_uint n).

(** ** Schemas *)

(** A schema path: [options.ref], whether it is an instance of
    [Schema.Types.Array], and the paths of its nested schema when it has one. *)
Inductive SchemaType :=
  SchemaPath (options_ref : option string) (is_array : bool)
             (nested : option (list (string * SchemaType))).

Record Schema := { paths : list (string * SchemaType) }.

Definition options_ref (p : SchemaType) : option string :=
  let 'SchemaPath r _ _ := p in r.
Definition is_array (p : SchemaType) : bool :=
  let 'SchemaPath _ a _ := p in a.
Definition path_schema (p : SchemaType) : option Schema :=
  let 'SchemaPath _ _ n := p in Build_Schema <$> n.

(** [if (path.options.ref)]: a missing or empty [ref] is falsy. *)
Definition ref_of (p : SchemaType) : option string :=
  match options_ref p with
  | Some r => if decide (r = "") then None else Some r
  | None => None
  end.

Record RefField := { field : string; refTo : string }.

Global Instance RefField_eq_dec : EqDecision RefField.
Proof. solve_decision. Defined.

Definition push {A} (arr : list A) (x : A) : list A := arr ++ [x].

(** [getRefFields] of [src/index.ts]: one pass over [schema.paths], pushing
    onto [refFields]. *)
Definition getRefFields (schema : Schema) : list RefField :=
  fold_left
    (fun refFields '(field, path) =>
       let refFields :=
         match ref_of path with
         | Some r => push refFields {| field := field; refTo := r |}
         | None => refFields
         end in
       match is_array path, path_schema path with
       | true, Some sub =>
           fold_left
             (fun refFields '(_, subPath) =>
                match ref_of subPath with
                | Some r => push refFields {| field := field; refTo := r |}
                | None => refFields
                end)
             (paths sub) refFields
       | _, _ => refFields
       end)
    (paths schema) [].

(** ** Errors, driver calls and asynchronous computations *)

Record Error := { message : string }.

(** The filters the code builds, and [QAll] for the empty filter [{}]. *)
Inductive Query :=
| QAll
| QById (value : Value)                  (* { _id: value } *)
| QByIdIn (ids : list string)            (* { _id: { $in: ids } } *)
| QOr (clauses : list (string * ObjectId)). (* { $or: [{ [field]: id }, ...] } *)

(** What leaves the process: a call to the driver, or a console line. *)
Inductive Event :=
| Exists (model : string) (q : Query)
| CountDocuments (model : string) (q : Query)
| FindOne (model : string) (q : Query)
| Aggregate (model : string) (q : Query) (limit : nat)
| ConsoleLog (line : string).

Inductive Result (A : Type) :=
| Ok (a : A)
| Throw (e : Error).
Arguments Ok {A} a.
Arguments Throw {A} e.

(** An asynchronous computation, run to completion: the events it caused,
    in order, and how it ended. *)
Definition Async (A : Type) : Type := list Event * Result A.

Global Instance Async_ret : MRet Async := λ A a, ([], Ok a).

Global Instance Async_bind : MBind Async := λ A B k m,
  match m with
  | (t, Ok a) => let '(t', r) := k a in (t ++ t', r)
  | (t, Throw e) => (t, Throw e)
  end.

Definition throw {A} (e : Error) : Async A := ([], Throw e).

(** [try { m } catch (error) { handler error }] *)
Definition try_catch {A} (m : Async A) (handler : Error → Async A) : Async A :=
  match m with
  | (t, Throw e) => let '(t', r) := handler e in (t ++ t', r)
  | (t, Ok a) => (t, Ok a)
  end.

Definition emit (ev : Event) : Async unit := ([ev], Ok tt).

(** [for (const x of xs) body]; [continue] is the body returning. *)
Fixpoint for_of {A} (xs : list A) (body : A → Async unit) : Async unit :=
  match xs with
  | [] => mret tt
  | x :: rest => body x ≫= λ _, for_of rest body
  end.

(** A loop that grows a local array: [body] returns the array after the
    iteration. *)
Fixpoint for_of_acc {A S} (xs : list A) (acc : S) (body : S → A → Async S)
  : Async S :=
  match xs with
  | [] => mret acc
  | x :: rest => body acc x ≫= λ acc', for_of_acc rest acc' body
  end.

Definition events {A} (m : Async A) : list Event := m.1.
Definition result {A} (m : Async A) : Result A := m.2.

Definition is_db_call (ev : Event) : bool :=
  match ev with
  | ConsoleLog _ => false
  | _ => true
  end.

(** The calls to the driver among the events of a run. *)
Definition db_calls (t : list Event) : list Event := List.filter is_db_call t.

(** ** The document store *)

Record Doc := { _id : ObjectId; fields : gmap string Value }.

(** Modelled from the spec: the state of a collection behind its handle
    (section 6); the store is not part of the sources. A collection answers
    from its documents, or every call on it fails with the driver's
    message. *)
Inductive Collection :=
| Online (docs : list Doc)
| Offline (reason : string).

Record Model := { modelName : string; schema : Schema; collection : Collection }.

(** Modelled from the spec: the catalog of section 6, [db.modelNames()]
    ([listAllCollectionNames]) and [db.model(name)]
    ([resolveCollectionHandle], which yields a handle for every name). *)
Record Connection := { modelNames : list string; model : string → Model }.

(** Modelled from the spec: the driver's matching of a filter against a
    stored document (section 6, [existsById], [countByIdSet], [findOne],
    [existsMatchingAny]); the driver is not part of the sources.
    Identifiers are compared by their string form; a field equals an
    identifier when it holds it or is an array that contains it. *)
Definition holds (target : ObjectId) (v : Value) : bool :=
  match v with
  | VId o => bool_decide (toString o = toString target)
  | VArr items => bool_decide (toString target ∈ toString <$> items)
  | _ => false
  end.

Definition matches (q : Query) (d : Doc) : bool :=
  match q with
  | QAll => true
  | QById (VId o) => bool_decide (toString (_id d) = toString o)
  | QById _ => false
  | QByIdIn ids => bool_decide (toString (_id d) ∈ ids)
  | QOr clauses => existsb (λ '(f, o), holds o (get (fields d) f)) clauses
  end.

(** Modelled from the spec: a lookup fails when the collection is
    unreachable or when [_id] is compared with a value that is not an
    identifier (a malformed query); otherwise it yields the matching
    documents in storage order. *)
Definition castable (q : Query) : bool :=
  match q with
  | QById (VArr _) | QById (VObj _) => false
  | _ => true
  end.

Definition find (c : Collection) (q : Query) : Error + list Doc :=
  match c with
  | Offline reason => inl {| message := reason |}
  | Online docs =>
      if castable q then inr (List.filter (matches q) docs)
      else inl {| message := "Cast to ObjectId failed" |}
  end.

(** Modelled from the spec: a call to the driver leaves one event and
    resolves to what the lookup found, or rejects with its error. *)
Definition driver_call {A B} (ev : Event) (r : Error + A) (f : A → B) : Async B :=
  ([ev], match r with inl e => Throw e | inr a => Ok (f a) end).

(** Modelled from the spec: [model.exists(q)] ([existsById]) resolves to
    the [_id] of a matching document, or [null]. *)
Definition Model_exists (m : Model) (q : Query) : Async (option ObjectId) :=
  driver_call (Exists (modelName m) q) (find (collection m) q) (λ ds, _id <$> head ds).

(** Modelled from the spec: [model.countDocuments(q)] ([countByIdSet]). *)
Definition countDocuments (m : Model) (q : Query) : Async nat :=
  driver_call (CountDocuments (modelName m) q) (find (collection m) q) length.

(** Modelled from the spec: [model.findOne(q)], the first match or [null]. *)
Definition findOne (m : Model) (q : Query) : Async (option Doc) :=
  driver_call (FindOne (modelName m) q) (find (collection m) q) head.

(** Modelled from the spec: [model.aggregate([{ $match: q }, { $limit:
    limit }])] ([existsMatchingAny]). *)
Definition aggregate (m : Model) (q : Query) (limit : nat) : Async (list Doc) :=
  driver_call (Aggregate (modelName m) q limit) (find (collection m) q) (take limit).

(** ** Existence validation *)

(** A JavaScript [Set], in insertion order. *)
Definition Set_add `{EqDecision A} (s : list A) (x : A) : list A :=
  if decide (x ∈ s) then s else push s x.

(** [[...new Set(xs)]] *)
Definition Set_new `{EqDecision A} (xs : list A) : list A :=
  fold_left Set_add xs [].

Definition database_error (fieldName : string) (error : Error) : Error :=
  {| message := "Database error validating " +:+ fieldName +:+ ": " +:+ message error |}.

(** [validateReference] of [src/index.ts]. *)
Definition validateReference (model : Model) (value : Value) (fieldName : string)
  : Async bool :=
  try_catch
    (if negb (truthy value) then mret true else
     match value with
     | VArr items =>
         if bool_decide (length items = 0) then mret true else
         let uniqueValues := Set_new (toString <$> items) in
         count ← countDocuments model (QByIdIn uniqueValues);
         mret (bool_decide (count = length uniqueValues))
     | _ =>
         exists_ ← Model_exists model (QById value);
         mret (bool_decide (exists_ ≠ None))
     end)
    (λ error, throw (database_error fieldName error)).

Module Legacy.

(** [getRefFields] of [index.js]: directly annotated paths only. *)
Definition getRefFields (schema : Schema) : list RefField :=
  fold_left
    (fun refFields '(field, path) =>
       match ref_of path with
       | Some r => push refFields {| field := field; refTo := r |}
       | None => refFields
       end)
    (paths schema) [].

(** What [validateReference] of [index.js] returns: [true], or whatever
    [model.exists] resolved to (the matching [{ _id }] or [null]). *)
Inductive Answer :=
| ATrue
| AExists (found : option ObjectId).

Definition answer_truthy (a : Answer) : bool :=
  match a with
  | ATrue | AExists (Some _) => true
  | AExists None => false
  end.

(** [validateReference] of [index.js]; [refModelName] is unused there. The
    set is built from the identifiers themselves, so it collapses only
    repetitions of the same object; the driver receives their string form. *)
Definition validateReference (model : Model) (refModelName : string)
    (value : Value) (fieldName : string) : Async Answer :=
  try_catch
    (if negb (truthy value) then mret ATrue else
     match value with
     | VArr items =>
         if bool_decide (length items = 0) then mret ATrue else
         let uniqueValues := Set_new items in
         exists_ ← Model_exists model (QByIdIn (toString <$> uniqueValues));
         mret (AExists exists_)
     | _ =>
         exists_ ← Model_exists model (QById value);
         mret (AExists exists_)
     end)
    (λ error, throw (database_error fieldName error)).

End Legacy.

(** ** The plugin *)

(** [ReferenceCheckOptions]: every key is optional ([F := option]);
    [Required<ReferenceCheckOptions>] has them all ([F := λ T, T]). *)
Record ReferenceCheckOptions (F : Type → Type) := {
  enableSave : F bool;
  enableUpdate : F bool;
  enableDelete : F bool;
  enableLogging : F bool;
  batchSize : F nat
}.
Arguments enableSave {F} _.
Arguments enableUpdate {F} _.
Arguments enableDelete {F} _.
Arguments enableLogging {F} _.
Arguments batchSize {F} _.

Definition Required (R : (Type → Type) → Type) : Type := R (λ T, T).

(** [{ enableSave: true, ..., batchSize: 100, ...options }] *)
Definition spread (options : ReferenceCheckOptions option)
  : Required ReferenceCheckOptions :=
  {| enableSave := default true (enableSave options);
     enableUpdate := default true (enableUpdate options);
     enableDelete := default true (enableDelete options);
     enableLogging := default false (enableLogging options);
     batchSize := default 100 (batchSize options) |}.

Module ValidationResult.
Record t := { field : string; refTo : string; value : Value; isValid : bool }.
End ValidationResult.

Module RefModel.
Record t := { modelName : string; fields : list string }.
End RefModel.

(** A document instance: [this.schema] and the stored fields behind
    [this.get]. *)
Record Document := { Document_schema : Schema; Document_doc : Doc }.

Definition Document_get (this : Document) (path : string) : Value :=
  get (fields (Document_doc this)) path.

(** The query a query middleware runs on: [this.model], [this.getQuery()]
    and [this.getUpdate()] ([None] when there is no update). *)
Record QueryThis := {
  Query_model : Model;
  getQuery : Query;
  getUpdate : option (gmap string Value)
}.

(** How a middleware ends: [next()] or [next(error)]. *)
Inductive Next :=
| Proceed
| Abort (error : Error).

(** [try { body; next() } catch (error) { next(error) }], where an early
    [return next()] is the body returning. *)
Definition middleware (body : Async unit) : list Event * Next :=
  match body with
  | (t, Ok _) => (t, Proceed)
  | (t, Throw e) => (t, Abort e)
  end.

Definition reference_validation_failed (value : Value) (refTo : string) : Error :=
  {| message := "Reference validation failed: The value " +:+ show value
                +:+ " does not exist within " +:+ refTo |}.

Definition cannot_delete (id : ObjectId) (modelName : string) : Error :=
  {| message := "Cannot delete record " +:+ toString id
                +:+ ": It is referenced in " +:+ modelName +:+ " model" |}.

Inductive Operation :=
| save
| findOneAndUpdate | updateOne | updateMany
| deleteOne | findOneAndDelete | deleteMany.

Global Instance Operation_eq_dec : EqDecision Operation.
Proof. solve_decision. Defined.

Definition updateOperations : list Operation :=
  [findOneAndUpdate; updateOne; updateMany].
Definition deleteOperations : list Operation :=
  [deleteOne; findOneAndDelete; deleteMany].

Section Plugin.

Variable options : ReferenceCheckOptions option.

Let config : Required ReferenceCheckOptions := spread options.

Definition log (line : string) : Async unit :=
  if enableLogging config then emit (ConsoleLog ("[ReferenceCheck] " +:+ line))
  else mret tt.

(** The [save] middleware; [this] is the document being saved. *)
Definition pre_save (db : Connection) (this : Document) : list Event * Next :=
  middleware
    (let refFields := getRefFields (Document_schema this) in
     if bool_decide (length refFields = 0) then mret tt else
     log ("Validating " +:+ show_nat (length refFields)
          +:+ " reference fields on save");;
     for_of refFields (λ fieldObj,
       let value := Document_get this (field fieldObj) in
       if negb (truthy value) then mret tt else
       let model := model db (refTo fieldObj) in
       isValid ← validateReference model value (field fieldObj);
       if negb isValid
       then throw (reference_validation_failed value (refTo fieldObj))
       else mret tt);;
     log "Save validation completed successfully").

(** The update middleware; [this] is the query, the values are read from
    [this.getUpdate()]. *)
Definition pre_update (db : Connection) (this : QueryThis) : list Event * Next :=
  middleware
    (match getUpdate this with
     | None => mret tt
     | Some payload =>
         let refFields := getRefFields (schema (Query_model this)) in
         if bool_decide (length refFields = 0) then mret tt else
         log ("Validating " +:+ show_nat (length refFields)
              +:+ " reference fields on update");;
         for_of refFields (λ fieldObj,
           let value := get payload (field fieldObj) in
           if negb (truthy value) then mret tt else
           let model := model db (refTo fieldObj) in
           isValid ← validateReference model value (field fieldObj);
           if negb isValid
           then throw (reference_validation_failed value (refTo fieldObj))
           else mret tt);;
         log "Update validation completed successfully"
     end).

(** The inner loop of the delete middleware: the paths of [model.schema]
    whose [options.ref] is the deleted model's name. *)
Definition referencing_fields (deletingModelName : string) (model : Model)
  : list string :=
  fold_left
    (λ refFields '(field, path),
       if decide (options_ref path = Some deletingModelName)
       then push refFields field else refFields)
    (paths (schema model)) [].

(** The outer loop of the delete middleware: the models that reference the
    deleted one. *)
Definition referencing_models (db : Connection) (deletingModelName : string)
  : list RefModel.t :=
  fold_left
    (λ refModels modelName,
       if decide (modelName = deletingModelName) then refModels else
       let model := model db modelName in
       let refFields := referencing_fields deletingModelName model in
       if bool_decide (0 < length refFields)
       then push refModels
              {| RefModel.modelName := modelName; RefModel.fields := refFields |}
       else refModels)
    (modelNames db) [].

(** The delete middleware; [this] is the query. *)
Definition pre_delete (db : Connection) (this : QueryThis) : list Event * Next :=
  middleware
    (let deletingModelName := modelName (Query_model this) in
     let query := getQuery this in
     log ("Checking references before deleting from " +:+ deletingModelName);;
     deletingItem ← findOne (Query_model this) query;
     match deletingItem with
     | None => log "No item found to delete, skipping reference check"
     | Some deletingItem =>
         let refModels := referencing_models db deletingModelName in
         if bool_decide (length refModels = 0)
         then log "No references found, safe to delete" else
         for_of refModels (λ refModel,
           let model := model db (RefModel.modelName refModel) in
           exists_ ← aggregate model
             (QOr ((λ field, (field, _id deletingItem)) <$> RefModel.fields refModel))
             1;
           if bool_decide (0 < length exists_)
           then throw (cannot_delete (_id deletingItem) (RefModel.modelName refModel))
           else mret tt);;
         log "Delete validation completed successfully"
     end).

(** [schema.statics.validateReferences]; [this] is the model. *)
Definition validateReferences (db : Connection) (this : Model)
    (data : gmap string Value) : Async (list ValidationResult.t) :=
  let refFields := getRefFields (schema this) in
  for_of_acc refFields [] (λ results fieldObj,
    let value := get data (field fieldObj) in
    if negb (truthy value) then mret results else
    let model := model db (refTo fieldObj) in
    isValid ← validateReference model value (field fieldObj);
    mret (push results
            {| ValidationResult.field := field fieldObj;
               ValidationResult.refTo := refTo fieldObj;
               ValidationResult.value := value;
               ValidationResult.isValid := isValid |})).

(** [schema.methods.checkReferences]; [this] is the document. *)
Definition checkReferences (db : Connection) (this : Document)
  : Async (list ValidationResult.t) :=
  let refFields := getRefFields (Document_schema this) in
  for_of_acc refFields [] (λ results fieldObj,
    let value := Document_get this (field fieldObj) in
    if negb (truthy value) then mret results else
    let model := model db (refTo fieldObj) in
    isValid ← validateReference model value (field fieldObj);
    mret (push results
            {| ValidationResult.field := field fieldObj;
               ValidationResult.refTo := refTo fieldObj;
               ValidationResult.value := value;
               ValidationResult.isValid := isValid |})).

(** What [ReferenceCheck(schema, options)] leaves on the schema: the
    middleware registered with [schema.pre], per operation, and the two
    methods. *)
Record Installed := {
  pre_document : list (Operation * (Connection → Document → list Event * Next));
  pre_query : list (Operation * (Connection → QueryThis → list Event * Next));
  statics_validateReferences :
    Connection → Model → gmap string Value → Async (list ValidationResult.t);
  methods_checkReferences :
    Connection → Document → Async (list ValidationResult.t)
}.

Definition ReferenceCheck : Installed :=
  {| pre_document :=
       if enableSave config then [(save, pre_save)] else [];
     pre_query :=
       (if enableUpdate config
        then (λ op, (op, pre_update)) <$> updateOperations else [])
       ++ (if enableDelete config
           then (λ op, (op, pre_delete)) <$> deleteOperations else []);
     statics_validateReferences := validateReferences;
     methods_checkReferences := checkReferences |}.

End Plugin.

(** Modelled from the spec: the operation pipeline of section 6
    ([beforeOperation]); it is the framework's, not part of the sources. The
    middleware registered for the operation run in registration order; the
    first [next(error)] aborts the operation. *)
Fixpoint run_pre {T} (hooks : list (Operation * (Connection → T → list Event * Next)))
    (op : Operation) (db : Connection) (this : T) : list Event * Next :=
  match hooks with
  | [] => ([], Proceed)
  | (op', hook) :: rest =>
      if decide (op' = op) then
        match hook db this with
        | (t, Proceed) => let '(t', n) := run_pre rest op db this in (t ++ t', n)
        | (t, Abort e) => (t, Abort e)
        end
      else run_pre rest op db this
  end.

(** ** The extractor as the specification words it *)

(** Section 4.1: a field whose declaration carries a reference-target
    annotation yields one entry. *)
Definition direct_entry (field : string) (path : SchemaType) : list RefField :=
  match ref_of path with
  | Some r => [{| field := field; refTo := r |}]
  | None => []
  end.

(** Section 4.1: an array-typed field whose element type is a structured
    schema yields one entry per annotated field of that schema, under the
    outer field's name. *)
Definition nested_entries (field : string) (path : SchemaType) : list RefField :=
  if is_array path then
    match path_schema path with
    | Some sub => flat_map (λ '(_, subPath), direct_entry field subPath) (paths sub)
    | None => []
    end
  else [].

Definition extract (schema : Schema) : list RefField :=
  flat_map (λ '(field, path), direct_entry field path ++ nested_entries field path)
    (paths schema).

(** The answer of the JavaScript validator read as a condition, the way
    [if (!isValid)] reads it. *)
Definition as_bool (m : Async Legacy.Answer) : Async bool :=
  (m.1, match m.2 with
        | Ok a => Ok (Legacy.answer_truthy a)
        | Throw e => Throw e
        end).

(** The three paths of section 4.4, the flag that toggles each, and the
    operations each covers. *)
Inductive Path := SavePath | UpdatePath | DeletePath.

Definition enabled (config : Required ReferenceCheckOptions) (path : Path) : bool :=
  match path with
  | SavePath => enableSave config
  | UpdatePath => enableUpdate config
  | DeletePath => enableDelete config
  end.

Definition operations (path : Path) : list Operation :=
  match path with
  | SavePath => [save]
  | UpdatePath => updateOperations
  | DeletePath => deleteOperations
  end.

(** An update operator is a top-level payload key that starts with [$]. *)
Definition is_operator (key : string) : bool := String.prefix "$" key.

(** One iteration of the loop shared by [validateReferences] and
    [checkReferences], with the way the value is read left open. *)
Definition manual_step (db : Connection) (read : string → Value)
    (results : list ValidationResult.t) (fieldObj : RefField)
  : Async (list ValidationResult.t) :=
  let value := read (field fieldObj) in
  if negb (truthy value) then mret results else
  let model := model db (refTo fieldObj) in
  isValid ← validateReference model value (field fieldObj);
  mret (push results
          {| ValidationResult.field := field fieldObj;
             ValidationResult.refTo := refTo fieldObj;
             ValidationResult.value := value;
             ValidationResult.isValid := isValid |}).

(** The entry reported for a reference field: its name, its target, the
    value read, and the validator's answer for that value. *)
Definition reports (db : Connection) (read : string → Value)
    (rf : RefField) (r : ValidationResult.t) : Prop :=
  ValidationResult.field r = field rf
  ∧ ValidationResult.refTo r = refTo rf
  ∧ ValidationResult.value r = read (field rf)
  ∧ result (validateReference (model db (refTo rf)) (read (field rf)) (field rf))
    = Ok (ValidationResult.isValid r).

(** Section 4.5 and section 7 for one call of the manual API: a returned
    sequence has one entry per reference field with a present value, in
    order; what is thrown is a lookup failure wrapped with the field name;
    and the call returns when every consulted collection is reachable and
    every present value is an identifier or an array of identifiers. *)
Definition manual_contract (db : Connection) (read : string → Value)
    (refFields : list RefField) (out : Async (list ValidationResult.t)) : Prop :=
  (∀ results, result out = Ok results →
     Forall2 (reports db read)
       (List.filter (λ rf, truthy (read (field rf))) refFields) results)
  ∧ (∀ e, result out = Throw e →
       ∃ rf q cause,
         rf ∈ refFields ∧ truthy (read (field rf)) = true
         ∧ find (collection (model db (refTo rf))) q = inl cause
         ∧ e = database_error (field rf) cause)
  ∧ ((∀ rf, rf ∈ refFields → truthy (read (field rf)) = true →
        (∃ docs, collection (model db (refTo rf)) = Online docs)
        ∧ ∀ props, read (field rf) ≠ VObj props) →
     ∃ results, result out = Ok results).

(** The existence-limited query the delete middleware runs on a
    referencing model, the event it leaves, and one iteration of its loop. *)
Definition scan_query (db : Connection) (id : ObjectId) (refModel : RefModel.t)
  : Async (list Doc) :=
  aggregate (model db (RefModel.modelName refModel))
    (QOr ((λ field, (field, id)) <$> RefModel.fields refModel)) 1.

Definition scan_event (db : Connection) (id : ObjectId) (refModel : RefModel.t)
  : Event :=
  Aggregate (modelName (model db (RefModel.modelName refModel)))
    (QOr ((λ field, (field, id)) <$> RefModel.fields refModel)) 1.

Definition scan (db : Connection) (deletingItem : Doc) (refModel : RefModel.t)
  : Async unit :=
  let model := model db (RefModel.modelName refModel) in
  exists_ ← aggregate model
    (QOr ((λ field, (field, _id deletingItem)) <$> RefModel.fields refModel)) 1;
  if bool_decide (0 < length exists_)
  then throw (cannot_delete (_id deletingItem) (RefModel.modelName refModel))
  else mret tt.

(** A message names a thing when the thing's printed form occurs in it. *)
Fixpoint contains (needle hay : string) : bool :=
  String.prefix needle hay
  || match hay with
     | EmptyString => false
     | String _ rest => contains needle rest
     end.

(** One iteration of the loop of the save middleware, and the lookups
    made for a reference field whose value is read with [read]. *)
Definition save_step (db : Connection) (this : Document) (fieldObj : RefField)
  : Async unit :=
  let value := Document_get this (field fieldObj) in
  if negb (truthy value) then mret tt else
  let model := model db (refTo fieldObj) in
  isValid ← validateReference model value (field fieldObj);
  if negb isValid
  then throw (reference_validation_failed value (refTo fieldObj))
  else mret tt.

Definition lookups (db : Connection) (read : string → Value) (rf : RefField)
  : list Event :=
  if truthy (read (field rf))
  then events (validateReference (model db (refTo rf)) (read (field rf)) (field rf))
  else [].

(** What the outer loop does with one catalog entry. *)
Definition referencing_model (db : Connection) (deletingModelName modelName : string)
  : option RefModel.t :=
  if decide (modelName = deletingModelName) then None else
  match referencing_fields deletingModelName (model db modelName) with
  | [] => None
  | refFields =>
      Some {| RefModel.modelName := modelName; RefModel.fields := refFields |}
  end.

(** ** The middleware and the manual methods of [index.js] *)

Module LegacyPlugin.

Module ValidationResult.
Record t := { field : string; refTo : string; value : Value;
              isValid : Legacy.Answer }.
End ValidationResult.

Section Plugin.

Variable options : ReferenceCheckOptions option.

(** The [save] middleware of [index.js]: [isValid] is whatever the
    validator resolved to, and [!isValid] reads it as a condition. *)
Definition pre_save (db : Connection) (this : Document) : list Event * Next :=
  middleware
    (let refFields := Legacy.getRefFields (Document_schema this) in
     if bool_decide (length refFields = 0) then mret tt else
     log options ("Validating " +:+ show_nat (length refFields)
                  +:+ " reference fields on save");;
     for_of refFields (λ fieldObj,
       let value := Document_get this (field fieldObj) in
       if negb (truthy value) then mret tt else
       let model := model db (refTo fieldObj) in
       isValid ← Legacy.validateReference model (refTo fieldObj) value
                   (field fieldObj);
       if negb (Legacy.answer_truthy isValid)
       then throw (reference_validation_failed value (refTo fieldObj))
       else mret tt);;
     log options "Save validation completed successfully").

(** The update middleware of [index.js]. *)
Definition pre_update (db : Connection) (this : QueryThis) : list Event * Next :=
  middleware
    (match getUpdate this with
     | None => mret tt
     | Some payload =>
         let refFields := Legacy.getRefFields (schema (Query_model this)) in
         if bool_decide (length refFields = 0) then mret tt else
         log options ("Validating " +:+ show_nat (length refFields)
                      +:+ " reference fields on update");;
         for_of refFields (λ fieldObj,
           let value := get payload (field fieldObj) in
           if negb (truthy value) then mret tt else
           let model := model db (refTo fieldObj) in
           isValid ← Legacy.validateReference model (refTo fieldObj) value
                       (field fieldObj);
           if negb (Legacy.answer_truthy isValid)
           then throw (reference_validation_failed value (refTo fieldObj))
           else mret tt);;
         log options "Update validation completed successfully"
     end).

End Plugin.

(** [schema.statics.validateReferences] of [index.js]. *)
Definition validateReferences (db : Connection) (this : Model)
    (data : gmap string Value) : Async (list ValidationResult.t) :=
  let refFields := Legacy.getRefFields (schema this) in
  for_of_acc refFields [] (λ results fieldObj,
    let value := get data (field fieldObj) in
    if negb (truthy value) then mret results else
    let model := model db (refTo fieldObj) in
    isValid ← Legacy.validateReference model (refTo fieldObj) value
                (field fieldObj);
    mret (push results
            {| ValidationResult.field := field fieldObj;
               ValidationResult.refTo := refTo fieldObj;
               ValidationResult.value := value;
               ValidationResult.isValid := isValid |})).

(** [schema.methods.checkReferences] of [index.js]. *)
Definition checkReferences (db : Connection) (this : Document)
  : Async (list ValidationResult.t) :=
  let refFields := Legacy.getRefFields (Document_schema this) in
  for_of_acc refFields [] (λ results fieldObj,
    let value := Document_get this (field fieldObj) in
    if negb (truthy value) then mret results else
    let model := model db (refTo fieldObj) in
    isValid ← Legacy.validateReference model (refTo fieldObj) value
                (field fieldObj);
    mret (push results
            {| ValidationResult.field := field fieldObj;
               ValidationResult.refTo := refTo fieldObj;
               ValidationResult.value := value;
               ValidationResult.isValid := isValid |})).

End LegacyPlugin.

(** One iteration of the [save] loop of [index.js]. *)
Definition legacy_save_step (db : Connection) (read : string → Value)
    (fieldObj : RefField) : Async unit :=
  let value := read (field fieldObj) in
  if negb (truthy value) then mret tt else
  let model := model db (refTo fieldObj) in
  isValid ← Legacy.validateReference model (refTo fieldObj) value (field fieldObj);
  if negb (Legacy.answer_truthy isValid)
  then throw (reference_validation_failed value (refTo fieldObj))
  else mret tt.

(** The document whose schema is the model's and whose fields are an
    update payload. *)
Definition as_document (m : Model) (id : ObjectId) (payload : gmap string Value)
  : Document :=
  {| Document_schema := schema m;
     Document_doc := {| _id := id; fields := payload |} |}.

(** An identifier for [as_document] when none matters: the save
    middleware never reads the [_id] of the document. *)
Definition modelName_id (m : Model) : ObjectId :=
  {| oid_addr := 0; oid_hex := modelName m |}.

(** Whether a value is an array with at least one element. *)
Definition nonempty_array (v : Value) : bool :=
  match v with
  | VArr (_ :: _) => true
  | _ => false
  end.

(** ** Fixtures shared by the examples *)

Module Fixture.

Definition oid (addr : nat) (hex : string) : ObjectId :=
  {| oid_addr := addr; oid_hex := hex |}.

(** Three identifiers, and a second object with the string form of [A]. *)
Definition A : ObjectId := oid 1 "a".
Definition A' : ObjectId := oid 2 "a".
Definition B : ObjectId := oid 3 "b".
Definition C : ObjectId := oid 4 "c".

Definition plain : SchemaType := SchemaPath None false None.
Definition ref (target : string) : SchemaType := SchemaPath (Some target) false None.

(** [User { name }], [Post { author: ref User }] and
    [Order { items: [{ product: ref User, quantity }] }]. *)
Definition userSchema : Schema :=
  {| paths := [("_id", plain); ("name", plain)] |}.
Definition postSchema : Schema :=
  {| paths := [("_id", plain); ("title", plain); ("author", ref "User")] |}.
Definition orderSchema : Schema :=
  {| paths := [("_id", plain);
               ("items", SchemaPath None true
                           (Some [("product", ref "User"); ("quantity", plain)]))] |}.

(** The target collection of the array example: exactly [{A, B}]. *)
Definition User : Model :=
  {| modelName := "User"; schema := userSchema;
     collection := Online [ {| _id := A; fields := ∅ |};
                            {| _id := B; fields := ∅ |} ] |}.

(** One post, written by [B]. *)
Definition Post : Model :=
  {| modelName := "Post"; schema := postSchema;
     collection := Online [ {| _id := oid 10 "p1";
                               fields := {[ "author" := VId B ]} |} ] |}.

Definition Order : Model :=
  {| modelName := "Order"; schema := orderSchema; collection := Online [] |}.

Definition db : Connection :=
  {| modelNames := ["User"; "Post"; "Order"];
     model := λ name,
       if decide (name = "Post") then Post
       else if decide (name = "Order") then Order
       else User |}.

Definition defaults : ReferenceCheckOptions option :=
  {| enableSave := None; enableUpdate := None; enableDelete := None;
     enableLogging := None; batchSize := None |}.

Definition deleteDisabled : ReferenceCheckOptions option :=
  {| enableSave := None; enableUpdate := None; enableDelete := Some false;
     enableLogging := None; batchSize := None |}.

(** [User.deleteOne({ _id: B })]: [B] is the author of the stored post. *)
Definition deleteB : QueryThis :=
  {| Query_model := User; getQuery := QById (VId B); getUpdate := None |}.

(** [Post.updateOne({}, { $set: { author: C } })]: no user [C] is stored. *)
Definition setAuthor : QueryThis :=
  {| Query_model := Post; getQuery := QAll;
     getUpdate := Some {[ "$set" := VObj {[ "author" := VId C ]} ]} |}.

(** [User.deleteMany({})]: matches [A], then [B]. *)
Definition deleteAll : QueryThis :=
  {| Query_model := User; getQuery := QAll; getUpdate := None |}.

(** A post about to be saved whose author [C] is not a stored user. *)
Definition draft : Document :=
  {| Document_schema := postSchema;
     Document_doc := {| _id := oid 11 "p2";
                        fields := {[ "author" := VId C; "title" := VNull ]} |} |}.

(** [User], with the store unreachable. *)
Definition UserDown : Model :=
  {| modelName := "User"; schema := userSchema;
     collection := Offline "connection refused" |}.

Definition dbDown : Connection :=
  {| modelNames := ["User"; "Post"; "Order"];
     model := λ name,
       if decide (name = "Post") then Post
       else if decide (name = "Order") then Order
       else UserDown |}.

(** A post about to be saved whose author [B] is a stored user. *)
Definition article : Document :=
  {| Document_schema := postSchema;
     Document_doc := {| _id := oid 12 "p3";
                        fields := {[ "author" := VId B ]} |} |}.

(** [User.deleteOne({ _id: C })]: no user [C] is stored. *)
Definition deleteC : QueryThis :=
  {| Query_model := User; getQuery := QById (VId C); getUpdate := None |}.

(** [Post.deleteMany({})]: nothing in the catalog references [Post]. *)
Definition deletePosts : QueryThis :=
  {| Query_model := Post; getQuery := QAll; getUpdate := None |}.

(** [Post.updateOne({}, { author: C })]. *)
Definition retarget : QueryThis :=
  {| Query_model := Post; getQuery := QAll;
     getUpdate := Some {[ "author" := VId C ]} |}.

(** [User.deleteMany({})] while the store is unreachable. *)
Definition deleteDown : QueryThis :=
  {| Query_model := UserDown; getQuery := QAll; getUpdate := None |}.

(** [Post.updateOne({}, { title: null, $set: { author: C } })]: a plain
    key next to an operator that assigns the reference field. *)
Definition retitle : QueryThis :=
  {| Query_model := Post; getQuery := QAll;
     getUpdate := Some {[ "title" := VNull;
                          "$set" := VObj {[ "author" := VId C ]} ]} |}.

Definition logging : ReferenceCheckOptions option :=
  {| enableSave := None; enableUpdate := None; enableDelete := None;
     enableLogging := Some true; batchSize := None |}.

End Fixture.

(** ** Asynchronous computations: basic facts *)

Lemma bind_Ok {X Y} (t : list Event) (a : X) (k : X → Async Y) :
  ((t, Ok a) : Async X) ≫= k = (t ++ (k a).1, (k a).2).
Proof. unfold mbind, Async_bind. by destruct (k a). Qed.

Lemma bind_Throw {X Y} (t : list Event) (e : Error) (k : X → Async Y) :
  ((t, Throw e) : Async X) ≫= k = (t, Throw e).
Proof. done. Qed.

Lemma ret_bind {X Y} (a : X) (k : X → Async Y) : mret a ≫= k = k a.
Proof. unfold mret, Async_ret. rewrite bind_Ok. by destruct (k a). Qed.

Lemma bind_assoc {X Y Z} (m : Async X) (k : X → Async Y) (h : Y → Async Z) :
  (m ≫= k) ≫= h = m ≫= (λ a, k a ≫= h).
Proof.
  destruct m as [t [a|e]]; [|done]. unfold mbind, Async_bind.
  destruct (k a) as [t' [b|e]]; [|done].
  destruct (h b) as [t'' r]. by rewrite app_assoc.
Qed.

Lemma db_calls_app (t t' : list Event) :
  db_calls (t ++ t') = db_calls t ++ db_calls t'.
Proof. unfold db_calls. apply List.filter_app. Qed.

(** ** JavaScript sets *)

Section SetFacts.

Context `{EqDecision T}.

Lemma Set_add_elem (s : list T) (x y : T) :
  y ∈ Set_add s x ↔ y ∈ s ∨ y = x.
Proof.
  unfold Set_add, push. case_decide as Hin.
  - split; [by left | intros [?| ->]; done].
  - rewrite elem_of_app, list_elem_of_singleton. done.
Qed.

Lemma Set_add_NoDup (s : list T) (x : T) : NoDup s → NoDup (Set_add s x).
Proof.
  intros Hs. unfold Set_add, push. case_decide as Hin; [done|].
  apply NoDup_app. split_and!; [done| |apply NoDup_singleton].
  intros y Hy ->%list_elem_of_singleton. done.
Qed.

Lemma fold_Set_add_elem (xs s : list T) (y : T) :
  y ∈ fold_left Set_add xs s ↔ y ∈ s ∨ y ∈ xs.
Proof.
  revert s. induction xs as [|x xs IH]; intros s; simpl.
  - rewrite elem_of_nil. tauto.
  - rewrite IH, Set_add_elem, elem_of_cons. tauto.
Qed.

Lemma fold_Set_add_NoDup (xs s : list T) :
  NoDup s → NoDup (fold_left Set_add xs s).
Proof.
  revert s. induction xs as [|x xs IH]; intros s Hs; simpl; [done|].
  by apply IH, Set_add_NoDup.
Qed.

Lemma Set_new_elem (xs : list T) (y : T) : y ∈ Set_new xs ↔ y ∈ xs.
Proof.
  unfold Set_new. rewrite fold_Set_add_elem, elem_of_nil. tauto.
Qed.

Lemma Set_new_NoDup (xs : list T) : NoDup (Set_new xs).
Proof. apply fold_Set_add_NoDup, NoDup_nil_2. Qed.

End SetFacts.

(** ** The extractor *)

Lemma fold_left_push_flat_map {X Y} (f : X → list Y) (g : list Y → X → list Y) :
  (∀ acc x, g acc x = acc ++ f x) →
  ∀ xs acc, fold_left g xs acc = acc ++ flat_map f xs.
Proof.
  intros Hg xs. induction xs as [|x xs IH]; intros acc; simpl.
  - by rewrite app_nil_r.
  - by rewrite IH, Hg, <- app_assoc.
Qed.

Lemma getRefFields_extract (schema : Schema) :
  getRefFields schema = extract schema.
Proof.
  unfold getRefFields, extract.
  rewrite (fold_left_push_flat_map
             (λ '(name, path), direct_entry name path ++ nested_entries name path));
    [done|].
  intros acc [name path]. unfold direct_entry, nested_entries, push.
  assert (Hdirect : match ref_of path with
                    | Some r => acc ++ [{| field := name; refTo := r |}]
                    | None => acc
                    end
                    = acc ++ match ref_of path with
                             | Some r => [{| field := name; refTo := r |}]
                             | None => []
                             end).
  { destruct (ref_of path); [done | by rewrite app_nil_r]. }
  rewrite Hdirect.
  destruct (is_array path), (path_schema path) as [sub|];
    rewrite ?app_nil_r; try done.
  rewrite (fold_left_push_flat_map
             (λ '(_, subPath), match ref_of subPath with
                               | Some r => [{| field := name; refTo := r |}]
                               | None => []
                               end)).
  - by rewrite app_assoc.
  - intros acc' [subField subPath].
    destruct (ref_of subPath); [done | by rewrite app_nil_r].
Qed.

Lemma Legacy_getRefFields_direct (schema : Schema) :
  Legacy.getRefFields schema
  = flat_map (λ '(name, path), direct_entry name path) (paths schema).
Proof.
  unfold Legacy.getRefFields.
  rewrite (fold_left_push_flat_map (λ '(name, path), direct_entry name path));
    [done|].
  intros acc [name path]. unfold direct_entry, push.
  destruct (ref_of path); [done | by rewrite app_nil_r].
Qed.

Lemma elem_of_flat_map {X Y} (f : X → list Y) (xs : list X) (y : Y) :
  y ∈ flat_map f xs ↔ ∃ x, x ∈ xs ∧ y ∈ f x.
Proof.
  rewrite list_elem_of_In, in_flat_map.
  split; intros (x & Hx & Hy); exists x; split; by apply list_elem_of_In.
Qed.

Lemma elem_of_direct_entry (name : string) (path : SchemaType) (rf : RefField) :
  rf ∈ direct_entry name path ↔ field rf = name ∧ ref_of path = Some (refTo rf).
Proof.
  unfold direct_entry. destruct (ref_of path) as [r|].
  - rewrite list_elem_of_singleton. split.
    + by intros ->.
    + intros [<- [= ->]]. by destruct rf.
  - rewrite elem_of_nil. naive_solver.
Qed.

Lemma elem_of_nested_entries (name : string) (path : SchemaType) (rf : RefField) :
  rf ∈ nested_entries name path ↔
  field rf = name ∧ is_array path = true ∧
  ∃ sub subField subPath,
    path_schema path = Some sub ∧ (subField, subPath) ∈ paths sub ∧
    ref_of subPath = Some (refTo rf).
Proof.
  unfold nested_entries.
  destruct (is_array path); [|rewrite elem_of_nil; naive_solver].
  destruct (path_schema path) as [sub|]; [|rewrite elem_of_nil; naive_solver].
  rewrite elem_of_flat_map. split.
  - intros ([subField subPath] & Hin & Hrf).
    apply elem_of_direct_entry in Hrf as [? ?]. naive_solver.
  - intros (? & _ & sub' & subField & subPath & [= <-] & Hin & Href).
    exists (subField, subPath). by rewrite elem_of_direct_entry.
Qed.

(** X22. For every schema the extractor of [src/index.ts] emits, in declaration order, one
    entry per directly annotated field and, for an array-typed field whose
    element type is a structured schema, one entry per annotated field of
    the nested schema, each under the outer field's name; a schema without
    reference fields yields the empty sequence. *)
Theorem getRefFields_spec (schema : Schema) :
  getRefFields schema = extract schema
  ∧ (∀ rf, rf ∈ getRefFields schema ↔
       ∃ name path, (name, path) ∈ paths schema ∧ field rf = name ∧
         (ref_of path = Some (refTo rf)
          ∨ (is_array path = true ∧
             ∃ sub subField subPath,
               path_schema path = Some sub ∧ (subField, subPath) ∈ paths sub ∧
               ref_of subPath = Some (refTo rf))))
  ∧ (getRefFields schema = [] ↔
       ∀ name path, (name, path) ∈ paths schema →
         direct_entry name path = [] ∧ nested_entries name path = []).
Proof.
  rewrite getRefFields_extract. split_and!; [done| |].
  - intros rf. unfold extract. rewrite elem_of_flat_map. split.
    + intros ([name path] & Hin & Hrf). exists name, path.
      rewrite elem_of_app, elem_of_direct_entry, elem_of_nested_entries in Hrf.
      naive_solver.
    + intros (name & path & Hin & Hname & Hrf). exists (name, path).
      rewrite elem_of_app, elem_of_direct_entry, elem_of_nested_entries.
      naive_solver.
  - unfold extract. induction (paths schema) as [|[name path] rest IH]; simpl.
    + split; [|done]. intros _ ? ? []%elem_of_nil.
    + split.
      * intros [[Hd Hn]%app_eq_nil Hrest]%app_eq_nil name' path'
          [[= -> ->]|Hin]%elem_of_cons; [done|].
        by apply IH.
      * intros Hall. destruct (Hall name path) as [-> ->]; [left|].
        simpl. apply IH. intros ? ? ?. apply Hall. by right.
Qed.

(** ** The existence validator *)

Lemma filter_sublist {X} (f : X → bool) (l : list X) :
  List.filter f l `sublist_of` l.
Proof.
  induction l as [|x l IH]; simpl; [done|].
  destruct (f x); by constructor.
Qed.

Lemma elem_of_filter_bool {X} (f : X → bool) (l : list X) (x : X) :
  x ∈ List.filter f l ↔ x ∈ l ∧ f x = true.
Proof. rewrite !list_elem_of_In. apply filter_In. Qed.

(** With unique [_id]s in the collection, the count of documents whose
    [_id] is in a duplicate-free set equals the size of the set exactly
    when every member of the set is the [_id] of a stored document. *)
Lemma count_eq_all_exist (docs : list Doc) (ids : list string) :
  NoDup (toString ∘ _id <$> docs) → NoDup ids →
  length (List.filter (matches (QByIdIn ids)) docs) = length ids ↔
  ∀ s, s ∈ ids → ∃ d, d ∈ docs ∧ toString (_id d) = s.
Proof.
  intros Hdocs Hids.
  set (found := toString ∘ _id <$> List.filter (matches (QByIdIn ids)) docs).
  assert (Hlen : length (List.filter (matches (QByIdIn ids)) docs) = length found)
    by (unfold found; by rewrite length_fmap).
  assert (Hfound : NoDup found).
  { eapply sublist_NoDup; [exact Hdocs|]. apply fmap_sublist, filter_sublist. }
  assert (Hsub : found ⊆+ ids).
  { apply NoDup_submseteq; [done|]. intros s (d & -> & Hd)%list_elem_of_fmap.
    apply elem_of_filter_bool in Hd as [_ Hm]. simpl in Hm.
    by apply bool_decide_eq_true in Hm. }
  rewrite Hlen. split.
  - intros Heq s Hs.
    assert (Hperm : found ≡ₚ ids)
      by (apply submseteq_length_Permutation; [done | lia]).
    rewrite <- Hperm in Hs. apply list_elem_of_fmap in Hs as (d & -> & Hd).
    apply elem_of_filter_bool in Hd as [Hd _]. by exists d.
  - intros Hall. apply Nat.le_antisymm; [by apply submseteq_length|].
    apply submseteq_length, NoDup_submseteq; [done|].
    intros s Hs. destruct (Hall s Hs) as (d & Hd & <-).
    apply list_elem_of_fmap. exists d. split; [done|].
    apply elem_of_filter_bool. split; [done|]. simpl.
    by apply bool_decide_eq_true.
Qed.

Lemma validateReference_absent (model : Model) (value : Value) (fieldName : string) :
  truthy value = false →
  validateReference model value fieldName = ([], Ok true).
Proof. intros H. unfold validateReference. by rewrite H. Qed.

Lemma validateReference_array_online (model : Model) (docs : list Doc)
    (items : list ObjectId) (fieldName : string) :
  collection model = Online docs →
  let uniqueValues := Set_new (toString <$> items) in
  validateReference model (VArr items) fieldName
  = (if bool_decide (length items = 0) then []
     else [CountDocuments (modelName model) (QByIdIn uniqueValues)],
     Ok (bool_decide
           (length (List.filter (matches (QByIdIn uniqueValues)) docs)
            = length uniqueValues))).
Proof.
  intros Hc uniqueValues. destruct items as [|o items].
  { unfold validateReference. simpl. do 2 f_equal. symmetry.
    apply bool_decide_eq_true. clear Hc. subst uniqueValues.
    change (Set_new (toString <$> [])) with (@nil string).
    induction docs as [|d docs IH]; [done|].
    cbn [List.filter]. destruct (matches (QByIdIn []) d) eqn:Hd; [|done].
    apply bool_decide_eq_true in Hd. by apply elem_of_nil in Hd. }
  unfold validateReference. simpl.
  unfold countDocuments, driver_call, find. by rewrite Hc.
Qed.

(** X21. For an array value the validator of [src/index.ts] collapses the identifiers to the
    set of their string forms and answers whether the count returned by the
    target collection equals the size of that set; with unique [_id]s this
    is: every identifier of the array is stored. With the collection
    [{A, B}], [[A, A, B]] is valid and [[A, C]] is not. *)
Theorem array_validation_counts_unique_ids :
  (∀ (model : Model) (docs : list Doc) (items : list ObjectId) (fieldName : string),
     collection model = Online docs →
     let uniqueValues := Set_new (toString <$> items) in
     let count := length (List.filter (matches (QByIdIn uniqueValues)) docs) in
     NoDup uniqueValues
     ∧ (∀ s, s ∈ uniqueValues ↔ ∃ o, o ∈ items ∧ toString o = s)
     ∧ result (validateReference model (VArr items) fieldName)
       = Ok (bool_decide (count = length uniqueValues))
     ∧ events (validateReference model (VArr items) fieldName)
       = (if bool_decide (length items = 0) then []
          else [CountDocuments (modelName model) (QByIdIn uniqueValues)])
     ∧ (NoDup (toString ∘ _id <$> docs) →
        (result (validateReference model (VArr items) fieldName) = Ok true ↔
         ∀ o, o ∈ items → ∃ d, d ∈ docs ∧ toString (_id d) = toString o)))
  ∧ result (validateReference Fixture.User
              (VArr [Fixture.A; Fixture.A; Fixture.B]) "tags") = Ok true
  ∧ result (validateReference Fixture.User
              (VArr [Fixture.A; Fixture.A'; Fixture.B]) "tags") = Ok true
  ∧ result (validateReference Fixture.User
              (VArr [Fixture.A; Fixture.C]) "tags") = Ok false.
Proof.
  split_and!; [|by vm_compute..].
  intros model docs items fieldName Hc uniqueValues count.
  pose proof (validateReference_array_online model docs items fieldName Hc) as Hv.
  simpl in Hv. fold uniqueValues in Hv. fold count in Hv.
  assert (Hmem : ∀ s, s ∈ uniqueValues ↔ ∃ o, o ∈ items ∧ toString o = s).
  { intros s. unfold uniqueValues. rewrite Set_new_elem, list_elem_of_fmap.
    naive_solver. }
  split_and!.
  - apply Set_new_NoDup.
  - done.
  - by rewrite Hv.
  - by rewrite Hv.
  - intros Hdocs. rewrite Hv. unfold result. simpl.
    split.
    + intros [= Hb]. apply bool_decide_eq_true in Hb.
      intros o Ho.
      apply (count_eq_all_exist docs uniqueValues Hdocs (Set_new_NoDup _)).
      * exact Hb.
      * apply Hmem. eauto.
    + intros Hall. f_equal. apply bool_decide_eq_true.
      apply count_eq_all_exist; [done | apply Set_new_NoDup |].
      intros s (o & Ho & <-)%Hmem. by apply Hall.
Qed.

Lemma array_validation_counts_unique_ids_witness :
  result (validateReference Fixture.User
            (VArr [Fixture.A; Fixture.A'; Fixture.B]) "tags")
  = Ok (bool_decide
          (length (List.filter
                     (matches (QByIdIn (Set_new (toString <$>
                        [Fixture.A; Fixture.A'; Fixture.B]))))
                     [ {| _id := Fixture.A; fields := ∅ |};
                       {| _id := Fixture.B; fields := ∅ |} ])
           = length (Set_new (toString <$> [Fixture.A; Fixture.A'; Fixture.B])))).
Proof.
  destruct array_validation_counts_unique_ids as [H _].
  destruct (H Fixture.User _ [Fixture.A; Fixture.A'; Fixture.B] "tags" eq_refl)
    as (_ & _ & Hresult & _).
  exact Hresult.
Defined.

(** ** The two implementations side by side *)

Lemma filter_matches_same_ids (ids ids' : list string) (docs : list Doc) :
  (∀ s, s ∈ ids ↔ s ∈ ids') →
  List.filter (matches (QByIdIn ids)) docs = List.filter (matches (QByIdIn ids')) docs.
Proof.
  intros Hsame. apply List.filter_ext. intros d. simpl.
  apply bool_decide_ext, Hsame.
Qed.

Lemma Legacy_ids_same (items : list ObjectId) (s : string) :
  s ∈ Set_new (toString <$> items) ↔ s ∈ toString <$> Set_new items.
Proof.
  rewrite Set_new_elem, !list_elem_of_fmap.
  split; intros (o & -> & Ho); exists o; by rewrite ?Set_new_elem in *.
Qed.

Lemma bool_decide_is_Some {X} (x : option X) :
  bool_decide (x ≠ None) = match x with Some _ => true | None => false end.
Proof.
  destruct x; [by apply bool_decide_eq_true|].
  apply bool_decide_eq_false. by intros [].
Qed.

Lemma Legacy_validateReference_scalar (model : Model) (refModelName : string)
    (value : Value) (fieldName : string) :
  (∀ items, value = VArr items → items = []) →
  as_bool (Legacy.validateReference model refModelName value fieldName)
  = validateReference model value fieldName.
Proof.
  intros Hscalar.
  destruct value as [| |o|items|props]; try done.
  - unfold Legacy.validateReference, validateReference. simpl.
    unfold Model_exists, driver_call.
    destruct (find (collection model) (QById (VId o))) as [e|ds]; [done|].
    unfold as_bool. simpl. rewrite bool_decide_is_Some. by destruct (head ds).
  - by rewrite (Hscalar items eq_refl).
  - unfold Legacy.validateReference, validateReference. simpl.
    unfold Model_exists, driver_call.
    destruct (find (collection model) (QById (VObj props))) as [e|ds]; [done|].
    unfold as_bool. simpl. rewrite bool_decide_is_Some. by destruct (head ds).
Qed.

Lemma Legacy_validateReference_array_online (model : Model) (docs : list Doc)
    (refModelName : string) (o : ObjectId) (items : list ObjectId)
    (fieldName : string) :
  collection model = Online docs →
  result (Legacy.validateReference model refModelName (VArr (o :: items)) fieldName)
  = Ok (Legacy.AExists
          (_id <$> head (List.filter
                           (matches (QByIdIn (Set_new (toString <$> o :: items))))
                           docs))).
Proof.
  intros Hc. unfold Legacy.validateReference. simpl.
  unfold Model_exists, driver_call, find. rewrite Hc. simpl.
  unfold result. simpl. do 4 f_equal.
  apply filter_matches_same_ids. intros s. symmetry.
  apply (Legacy_ids_same (o :: items) s).
Qed.

Lemma validateReference_array_offline (model : Model) (reason : string)
    (refModelName : string) (o : ObjectId) (items : list ObjectId)
    (fieldName : string) :
  collection model = Offline reason →
  result (validateReference model (VArr (o :: items)) fieldName)
  = Throw (database_error fieldName {| message := reason |})
  ∧ result (Legacy.validateReference model refModelName (VArr (o :: items)) fieldName)
    = Throw (database_error fieldName {| message := reason |}).
Proof.
  intros Hc. unfold validateReference, Legacy.validateReference. simpl.
  unfold countDocuments, Model_exists, driver_call, find. by rewrite Hc.
Qed.

Lemma head_filter_Some {X} (f : X → bool) (l : list X) :
  is_Some (head (List.filter f l)) ↔ ∃ x, x ∈ l ∧ f x = true.
Proof.
  split.
  - intros [x Hx]. exists x. apply elem_of_filter_bool.
    destruct (List.filter f l) as [|y l'] eqn:Hl; [done|].
    injection Hx as ->. by left.
  - intros (x & Hx). apply elem_of_filter_bool in Hx.
    destruct (List.filter f l); [by apply elem_of_nil in Hx | by eexists].
Qed.

(** On a reachable collection the JavaScript validator reads a non-empty
    array as valid exactly when one of its identifiers is stored. *)
Lemma Legacy_array_any_match (model : Model) (docs : list Doc)
    (refModelName : string) (o : ObjectId) (items : list ObjectId)
    (fieldName : string) :
  collection model = Online docs →
  result (as_bool (Legacy.validateReference model refModelName
                     (VArr (o :: items)) fieldName)) = Ok true ↔
  ∃ o' d, o' ∈ o :: items ∧ d ∈ docs ∧ toString (_id d) = toString o'.
Proof.
  intros Hc.
  pose proof (Legacy_validateReference_array_online model docs refModelName
                o items fieldName Hc) as Hjs.
  pose proof (head_filter_Some
                (matches (QByIdIn (Set_new (toString <$> o :: items)))) docs)
    as Hhead.
  set (found := head (List.filter
                        (matches (QByIdIn (Set_new (toString <$> o :: items))))
                        docs)) in *.
  assert (Hres : result (as_bool (Legacy.validateReference model refModelName
                                    (VArr (o :: items)) fieldName))
                 = Ok (if found is Some _ then true else false)).
  { unfold as_bool, result in *. cbn [snd]. rewrite Hjs. by destruct found. }
  rewrite Hres. split.
  - intros Hok.
    destruct Hhead as [Hhead _].
    destruct Hhead as (d & Hd & Hm).
    { destruct found; [by eexists | done]. }
    cbn [matches] in Hm. apply bool_decide_eq_true in Hm.
    apply Set_new_elem, list_elem_of_fmap in Hm as (o' & Heq & Ho').
    by exists o', d.
  - intros (o' & d & Ho' & Hd & Heq).
    destruct Hhead as [_ Hhead]. destruct Hhead as [d' Hd'].
    { exists d. split; [done|]. cbn [matches]. apply bool_decide_eq_true.
      apply Set_new_elem, list_elem_of_fmap. by exists o'. }
    by rewrite Hd'.
Qed.

(** C2, as amended. The two implementations extract the same fields from
    every schema without reference fields nested in an array field; they
    give the same answer, read as a condition, with the same lookups, for
    every value that is not a non-empty array; on a non-empty array they
    fail together with the same error, and a valid answer of the typed
    implementation is a valid answer of the JavaScript one. *)
Theorem implementations_agree_in_part :
  (∀ schema : Schema,
     (∀ name path, (name, path) ∈ paths schema → nested_entries name path = []) →
     Legacy.getRefFields schema = getRefFields schema)
  ∧ (∀ (model : Model) (refModelName : string) (value : Value) (fieldName : string),
       (∀ items, value = VArr items → items = []) →
       as_bool (Legacy.validateReference model refModelName value fieldName)
       = validateReference model value fieldName)
  ∧ (∀ (model : Model) (refModelName : string) (items : list ObjectId)
       (fieldName : string),
       (∀ e, result (validateReference model (VArr items) fieldName) = Throw e ↔
             result (as_bool (Legacy.validateReference model refModelName
                                (VArr items) fieldName)) = Throw e)
       ∧ (result (validateReference model (VArr items) fieldName) = Ok true →
          result (as_bool (Legacy.validateReference model refModelName
                             (VArr items) fieldName)) = Ok true)).
Proof.
  split_and!.
  - intros schema Hflat.
    rewrite Legacy_getRefFields_direct, getRefFields_extract. unfold extract.
    induction (paths schema) as [|[name path] rest IH]; [done|]. simpl.
    rewrite (Hflat name path), app_nil_r by left.
    f_equal. apply IH. intros ? ? ?. apply Hflat. by right.
  - apply Legacy_validateReference_scalar.
  - intros model refModelName [|o items] fieldName; [done|].
    destruct (collection model) as [docs|reason] eqn:Hc.
    + pose proof (validateReference_array_online model docs (o :: items)
                    fieldName Hc) as Hts. simpl in Hts.
      pose proof (Legacy_validateReference_array_online model docs refModelName
                    o items fieldName Hc) as Hjs.
      unfold as_bool, result in *. simpl. rewrite Hts, Hjs. simpl.
      split; [done|]. intros [= Hcount%bool_decide_eq_true]. f_equal.
      destruct (List.filter _ docs) as [|d ds] eqn:Hf; [|done].
      simpl in Hcount. symmetry in Hcount.
      apply length_zero_iff_nil in Hcount.
      match type of Hcount with
      | ?u = [] =>
          assert (Hin : toString o ∈ u)
            by (change (toString o ∈ Set_new (toString <$> o :: items));
                apply Set_new_elem; left)
      end.
      rewrite Hcount in Hin. by apply elem_of_nil in Hin.
    + destruct (validateReference_array_offline model reason refModelName
                  o items fieldName Hc) as [Hts Hjs].
      unfold as_bool, result in *. simpl. rewrite Hts, Hjs. done.
Qed.

Lemma implementations_agree_in_part_witness :
  Legacy.getRefFields Fixture.postSchema = getRefFields Fixture.postSchema
  ∧ as_bool (Legacy.validateReference Fixture.User "User" (VId Fixture.C) "author")
    = validateReference Fixture.User (VId Fixture.C) "author".
Proof.
  destruct implementations_agree_in_part as (Hextract & Hscalar & _). split.
  - apply (Hextract Fixture.postSchema).
    intros name path Hin. vm_compute in Hin.
    repeat (apply elem_of_cons in Hin as [[= -> ->]|Hin]; [reflexivity|]).
    by apply elem_of_nil in Hin.
  - apply (Hscalar Fixture.User "User" (VId Fixture.C) "author").
    intros items Hitems. discriminate Hitems.
Defined.

(** C2 fails as stated: the typed extractor reports the reference nested
    in [Order.items] and the JavaScript one does not; on [[A, C]] against
    [{A, B}] the typed validator answers invalid and the JavaScript one
    valid. *)
Lemma implementations_differ :
  Legacy.getRefFields Fixture.orderSchema ≠ getRefFields Fixture.orderSchema
  ∧ result (validateReference Fixture.User
              (VArr [Fixture.A; Fixture.C]) "tags") = Ok false
  ∧ result (as_bool (Legacy.validateReference Fixture.User "User"
                       (VArr [Fixture.A; Fixture.C]) "tags")) = Ok true.
Proof. split_and!; [by vm_compute | by vm_compute..]. Qed.

(** C1. At the failing input, the array [[A, C]] against the collection
    [{A, B}]: the validator of [src/index.ts] answers invalid, as the claim
    says; the validator of [index.js] asks [exists] with [$in] over both
    identifiers, gets the document [A] back and returns it, which the
    middleware reads as valid. On every reachable collection it reads a
    non-empty array as valid as soon as one identifier of it is stored. *)
Theorem legacy_array_validation_accepts_missing :
  result (validateReference Fixture.User
            (VArr [Fixture.A; Fixture.C]) "tags") = Ok false
  ∧ Legacy.validateReference Fixture.User "User"
      (VArr [Fixture.A; Fixture.C]) "tags"
    = ([Exists "User" (QByIdIn ["a"; "c"])],
       Ok (Legacy.AExists (Some Fixture.A)))
  ∧ Legacy.answer_truthy (Legacy.AExists (Some Fixture.A)) = true
  ∧ (∀ (name : string) (sch : Schema) (docs : list Doc) (refModelName : string)
       (o : ObjectId) (items : list ObjectId) (fieldName : string),
       result (as_bool (Legacy.validateReference
                          {| modelName := name; schema := sch;
                             collection := Online docs |}
                          refModelName (VArr (o :: items)) fieldName)) = Ok true ↔
       ∃ o' d, o' ∈ o :: items ∧ d ∈ docs ∧ toString (_id d) = toString o').
Proof.
  split_and!; [by vm_compute..|].
  intros name sch docs refModelName o items fieldName.
  by apply Legacy_array_any_match.
Qed.

(** C4. At the failing input, the schema of [Order] with the array field
    [items] whose element schema annotates [product] with [User]: the
    extractor of [src/index.ts] reports [items] as a reference to [User],
    as the claim says; the extractor of [index.js] reports nothing. On
    every schema it reports the directly annotated paths only. *)
Theorem legacy_extraction_skips_nested :
  getRefFields Fixture.orderSchema = [{| field := "items"; refTo := "User" |}]
  ∧ Legacy.getRefFields Fixture.orderSchema = []
  ∧ (∀ schema : Schema,
       Legacy.getRefFields schema
       = flat_map (λ '(name, path), direct_entry name path) (paths schema)).
Proof.
  split_and!; [by vm_compute..|]. apply Legacy_getRefFields_direct.
Qed.

(** ** Discovery of the referencing models *)

Lemma elem_of_referencing_fields (deletingModelName : string) (model : Model)
    (name : string) :
  name ∈ referencing_fields deletingModelName model ↔
  ∃ path, (name, path) ∈ paths (schema model)
          ∧ options_ref path = Some deletingModelName.
Proof.
  unfold referencing_fields.
  rewrite (fold_left_push_flat_map
             (λ '(name, path),
                if decide (options_ref path = Some deletingModelName)
                then [name] else [])).
  - rewrite app_nil_l, elem_of_flat_map. split.
    + intros ([name' path] & Hin & Hname). case_decide; [|by apply elem_of_nil in Hname].
      apply list_elem_of_singleton in Hname as ->. by exists path.
    + intros (path & Hin & Href). exists (name, path). split; [done|].
      rewrite decide_True by done. by left.
  - intros acc [name' path]. unfold push. case_decide; [done | by rewrite app_nil_r].
Qed.

(** The models the outer loop keeps, written as a filter over the catalog. *)
Lemma referencing_models_omap (db : Connection) (deletingModelName : string) :
  referencing_models db deletingModelName
  = omap (referencing_model db deletingModelName) (modelNames db).
Proof.
  unfold referencing_models.
  rewrite (fold_left_push_flat_map
             (λ modelName,
                option_list (referencing_model db deletingModelName modelName))).
  - rewrite app_nil_l. induction (modelNames db) as [|n names IH]; [done|].
    simpl. rewrite IH. by destruct (referencing_model db deletingModelName n).
  - intros acc n. unfold referencing_model, push. case_decide; [by rewrite app_nil_r|].
    destruct (referencing_fields deletingModelName (model db n)) as [|f fs];
      [by rewrite app_nil_r | done].
Qed.

Lemma referencing_model_Some (db : Connection) (deletingModelName n : string)
    (rm : RefModel.t) :
  referencing_model db deletingModelName n = Some rm ↔
  n ≠ deletingModelName
  ∧ rm = {| RefModel.modelName := n;
            RefModel.fields := referencing_fields deletingModelName (model db n) |}
  ∧ referencing_fields deletingModelName (model db n) ≠ [].
Proof.
  unfold referencing_model. case_decide as Hn.
  - split; [done | by intros (? & _)].
  - destruct (referencing_fields deletingModelName (model db n)) as [|f fs].
    + split; [done | by intros (_ & _ & ?)].
    + split; [by intros [= <-] | by intros (_ & -> & _)].
Qed.

(** X23. Discovery walks the catalog in order, skips the
    affected collection and keeps exactly the collections that declare at
    least one path annotated directly with the affected collection's name,
    listing those paths; it reads the annotations itself and does not call
    the extractor. *)
Theorem referencing_models_spec (db : Connection) (deletingModelName : string) :
  referencing_models db deletingModelName
  = omap (referencing_model db deletingModelName) (modelNames db)
  ∧ (∀ n, n ∈ (RefModel.modelName <$> referencing_models db deletingModelName) ↔
          n ∈ modelNames db ∧ n ≠ deletingModelName ∧
          ∃ name path, (name, path) ∈ paths (schema (model db n))
                       ∧ options_ref path = Some deletingModelName)
  ∧ (∀ rm, rm ∈ referencing_models db deletingModelName →
       ∀ name, name ∈ RefModel.fields rm ↔
         ∃ path, (name, path) ∈ paths (schema (model db (RefModel.modelName rm)))
                 ∧ options_ref path = Some deletingModelName).
Proof.
  rewrite referencing_models_omap. split_and!; [done| |].
  - intros n. rewrite list_elem_of_fmap. split.
    + intros (rm & -> & Hrm). apply list_elem_of_omap in Hrm as (n & Hn & Hsome).
      apply referencing_model_Some in Hsome as (Hne & -> & Hfields). simpl.
      split_and!; [done..|].
      destruct (referencing_fields deletingModelName (model db n)) as [|f fs] eqn:Hf;
        [done|].
      exists f. apply elem_of_referencing_fields. rewrite Hf. by left.
    + intros (Hn & Hne & name & path & Hin & Href).
      eexists. split; [|apply list_elem_of_omap; exists n; split; [done|]].
      2:{ apply referencing_model_Some. split_and!; [done..|].
          intros Hnil.
          assert (Hname : name ∈ referencing_fields deletingModelName (model db n))
            by (apply elem_of_referencing_fields; eauto).
          rewrite Hnil in Hname. by apply elem_of_nil in Hname. }
      done.
  - intros rm (n & Hn & Hsome)%list_elem_of_omap name.
    apply referencing_model_Some in Hsome as (Hne & -> & Hfields). simpl.
    apply elem_of_referencing_fields.
Qed.

(** C3. At the failing input, a delete from [User] with the catalog
    [User], [Post], [Order]: [Order] is in the catalog, is not the affected
    collection, and the extractor reports its field [items] as a reference
    to [User]; discovery for [User] keeps [Post] only, so [Order] is never
    scanned. *)
Lemma discovery_skips_nested_references :
  "Order" ∈ modelNames Fixture.db
  ∧ "Order" ≠ "User"
  ∧ {| field := "items"; refTo := "User" |}
      ∈ getRefFields (schema (model Fixture.db "Order"))
  ∧ ¬ ("Order" ∈ (RefModel.modelName <$> referencing_models Fixture.db "User"))
  ∧ referencing_models Fixture.db "User"
    = [ {| RefModel.modelName := "Post"; RefModel.fields := ["author"] |} ].
Proof.
  assert (Hkept : referencing_models Fixture.db "User"
                  = [ {| RefModel.modelName := "Post";
                         RefModel.fields := ["author"] |} ])
    by (by vm_compute).
  split_and!; [| done | | | done].
  - cbn. set_solver.
  - vm_compute. set_solver.
  - rewrite Hkept. cbn. set_solver.
Qed.

(** ** Running asynchronous code: events and results *)

Lemma events_bind {X Y} (m : Async X) (k : X → Async Y) :
  events (m ≫= k)
  = events m ++ match result m with Ok a => events (k a) | Throw _ => [] end.
Proof.
  destruct m as [t [a|e]]; unfold events, result; simpl.
  - by destruct (k a).
  - by rewrite app_nil_r.
Qed.

Lemma result_bind {X Y} (m : Async X) (k : X → Async Y) :
  result (m ≫= k)
  = match result m with Ok a => result (k a) | Throw e => Throw e end.
Proof.
  destruct m as [t [a|e]]; unfold events, result; simpl; [|done].
  by destruct (k a).
Qed.

Lemma middleware_events (body : Async unit) : (middleware body).1 = events body.
Proof. by destruct body as [t [[]|e]]. Qed.

Lemma middleware_next (body : Async unit) :
  (middleware body).2
  = match result body with Ok _ => Proceed | Throw e => Abort e end.
Proof. by destruct body as [t [[]|e]]. Qed.

Lemma log_result (options : ReferenceCheckOptions option) (line : string) :
  result (log options line) = Ok tt.
Proof. unfold log. by destruct (enableLogging (spread options)). Qed.

Lemma log_db_calls (options : ReferenceCheckOptions option) (line : string) :
  db_calls (events (log options line)) = [].
Proof. unfold log. by destruct (enableLogging (spread options)). Qed.

Lemma result_ret {X} (a : X) : result (mret a) = Ok a.
Proof. done. Qed.

Lemma events_ret {X} (a : X) : events (mret a : Async X) = [].
Proof. done. Qed.

Lemma result_throw {X} (e : Error) : result (throw e : Async X) = Throw e.
Proof. done. Qed.

Lemma events_throw {X} (e : Error) : events (throw e : Async X) = [].
Proof. done. Qed.

Lemma result_emit (ev : Event) : result (emit ev) = Ok tt.
Proof. done. Qed.

Lemma events_emit (ev : Event) : events (emit ev) = [ev].
Proof. done. Qed.

Create Rewrite HintDb async.
#[local] Hint Rewrite @events_bind @result_bind @result_ret @events_ret @result_throw
  @events_throw result_emit events_emit log_result log_db_calls db_calls_app middleware_events
  middleware_next app_nil_r : async.

Ltac async_simpl := repeat (autorewrite with async; cbn [app]).

(** ** Disabled paths *)

Lemma run_pre_unregistered {T}
    (hooks : list (Operation * (Connection → T → list Event * Next)))
    (op : Operation) (db : Connection) (this : T) :
  op ∉ hooks.*1 → run_pre hooks op db this = ([], Proceed).
Proof.
  induction hooks as [|[op' hook] rest IH]; intros Hop; simpl; [done|].
  rewrite fmap_cons, not_elem_of_cons in Hop. destruct Hop as [Hne Hrest].
  rewrite decide_False by done. by apply IH.
Qed.

(** A flag of the merged configuration is off exactly when the caller
    passed [false] for it. *)
Lemma enabled_spread (options : ReferenceCheckOptions option) (path : Path) :
  enabled (spread options) path = false ↔
  match path with
  | SavePath => enableSave options
  | UpdatePath => enableUpdate options
  | DeletePath => enableDelete options
  end = Some false.
Proof.
  destruct path; cbn;
    match goal with |- context [default _ ?o] => destruct o as [[]|] end;
    naive_solver.
Qed.

(** C8. When the flag of a path is disabled in the merged configuration,
    no middleware is registered for any operation of that path, and such an
    operation starts without any event: no lookup, no console line. *)
Theorem disabled_path_installs_nothing (options : ReferenceCheckOptions option)
    (path : Path) (op : Operation) :
  enabled (spread options) path = false →
  op ∈ operations path →
  ¬ (op ∈ (pre_document (ReferenceCheck options)).*1)
  ∧ ¬ (op ∈ (pre_query (ReferenceCheck options)).*1)
  ∧ (∀ db this, run_pre (pre_document (ReferenceCheck options)) op db this
                = ([], Proceed))
  ∧ (∀ db this, run_pre (pre_query (ReferenceCheck options)) op db this
                = ([], Proceed)).
Proof.
  intros Hoff Hop.
  assert (Hdoc : op ∉ (pre_document (ReferenceCheck options)).*1).
  { unfold ReferenceCheck. cbn [pre_document].
    destruct path; cbn [enabled] in Hoff; cbn [operations] in Hop.
    - rewrite Hoff. apply not_elem_of_nil.
    - destruct (enableSave (spread options)); cbn; set_solver.
    - destruct (enableSave (spread options)); cbn; set_solver. }
  assert (Hquery : op ∉ (pre_query (ReferenceCheck options)).*1).
  { unfold ReferenceCheck. cbn [pre_query]. rewrite fmap_app, not_elem_of_app.
    destruct path; cbn [enabled] in Hoff; cbn [operations] in Hop.
    - destruct (enableUpdate (spread options)),
        (enableDelete (spread options)); cbn; set_solver.
    - rewrite Hoff. destruct (enableDelete (spread options)); cbn; set_solver.
    - rewrite Hoff. destruct (enableUpdate (spread options)); cbn; set_solver. }
  split_and!; [done..| |]; intros db this; by apply run_pre_unregistered.
Qed.

Lemma disabled_path_installs_nothing_witness :
  run_pre (pre_query (ReferenceCheck Fixture.deleteDisabled)) deleteOne
    Fixture.db Fixture.deleteB
  = ([], Proceed)
  ∧ (run_pre (pre_query (ReferenceCheck Fixture.defaults)) deleteOne
       Fixture.db Fixture.deleteB).2
    = Abort (cannot_delete Fixture.B "Post").
Proof.
  split.
  - apply (disabled_path_installs_nothing Fixture.deleteDisabled DeletePath deleteOne).
    + reflexivity.
    + simpl. left.
  - vm_compute. reflexivity.
Defined.

(** ** The update path *)

Lemma for_of_skip {X} (xs : list X) (body : X → Async unit) :
  (∀ x, x ∈ xs → body x = mret tt) → for_of xs body = mret tt.
Proof.
  induction xs as [|x xs IH]; intros Hskip; simpl; [done|].
  rewrite (Hskip x) by left. rewrite ret_bind. apply IH.
  intros y Hy. apply Hskip. by right.
Qed.

Lemma for_of_ext {X} (xs : list X) (body body' : X → Async unit) :
  (∀ x, x ∈ xs → body x = body' x) → for_of xs body = for_of xs body'.
Proof.
  induction xs as [|x xs IH]; intros Hext; simpl; [done|].
  rewrite (Hext x) by left. rewrite IH; [done|].
  intros y Hy. apply Hext. by right.
Qed.

(** The middleware sees of the payload only what it holds, at top level,
    under the names of the reference fields. *)
Lemma pre_update_reads_top_level (options : ReferenceCheckOptions option)
    (db : Connection) (m : Model) (q q' : Query)
    (payload payload' : gmap string Value) :
  (∀ rf, rf ∈ getRefFields (schema m) →
         get payload (field rf) = get payload' (field rf)) →
  pre_update options db
    {| Query_model := m; getQuery := q; getUpdate := Some payload |}
  = pre_update options db
      {| Query_model := m; getQuery := q'; getUpdate := Some payload' |}.
Proof.
  intros Hsame. unfold pre_update. cbn [getUpdate Query_model].
  case_bool_decide; [done|].
  erewrite for_of_ext; [reflexivity|].
  intros rf Hrf. cbv beta. by rewrite (Hsame rf Hrf).
Qed.

Lemma pre_update_untouched (options : ReferenceCheckOptions option)
    (db : Connection) (this : QueryThis) (payload : gmap string Value) :
  getUpdate this = Some payload →
  (∀ rf, rf ∈ getRefFields (schema (Query_model this)) →
         truthy (get payload (field rf)) = false) →
  (pre_update options db this).2 = Proceed
  ∧ db_calls (pre_update options db this).1 = [].
Proof.
  intros Hpayload Habsent. unfold pre_update.
  rewrite middleware_next, middleware_events, Hpayload.
  case_bool_decide; [done|].
  rewrite for_of_skip.
  2:{ intros rf Hrf. by rewrite (Habsent rf Hrf). }
  by async_simpl.
Qed.

(** When every top-level key of the payload is an update operator and no
    reference field is named like one, the update proceeds and no lookup is
    made, whatever the operators assign. *)
Theorem pre_update_ignores_operators (options : ReferenceCheckOptions option)
    (db : Connection) (this : QueryThis) (payload : gmap string Value) :
  getUpdate this = Some payload →
  (∀ key, key ∈ dom payload → is_operator key = true) →
  (∀ rf, rf ∈ getRefFields (schema (Query_model this)) →
         is_operator (field rf) = false) →
  (pre_update options db this).2 = Proceed
  ∧ db_calls (pre_update options db this).1 = [].
Proof.
  intros Hpayload Hkeys Hfields.
  apply (pre_update_untouched options db this payload Hpayload).
  intros rf Hrf. unfold get.
  destruct (payload !! field rf) as [v|] eqn:Hlookup; [|done].
  assert (Hop : is_operator (field rf) = true)
    by (apply Hkeys, elem_of_dom; eauto).
  rewrite (Hfields rf Hrf) in Hop. done.
Qed.

Lemma pre_update_ignores_operators_witness :
  (pre_update Fixture.defaults Fixture.db Fixture.setAuthor).2 = Proceed
  ∧ db_calls (pre_update Fixture.defaults Fixture.db Fixture.setAuthor).1 = [].
Proof.
  apply (pre_update_ignores_operators Fixture.defaults Fixture.db
           Fixture.setAuthor {[ "$set" := VObj {[ "author" := VId Fixture.C ]} ]}).
  - reflexivity.
  - intros key Hkey. apply elem_of_dom in Hkey as [v Hv].
    apply lookup_singleton_Some in Hv as [<- _]. reflexivity.
  - intros rf Hrf. vm_compute in Hrf.
    apply list_elem_of_singleton in Hrf as ->. reflexivity.
Defined.

(** C9. The update middleware reads the payload at its top-level keys
    only: when no reference field holds a value at the top level of the
    payload, whatever else the payload holds (other keys, and reference
    fields assigned under operators such as [$set]), the update proceeds
    and no lookup is made, also when an assigned identifier is not
    stored. *)
Theorem update_skips_fields_under_operators (options : ReferenceCheckOptions option)
    (db : Connection) (this : QueryThis) (payload : gmap string Value) :
  getUpdate this = Some payload →
  (∀ rf, rf ∈ getRefFields (schema (Query_model this)) →
         truthy (get payload (field rf)) = false) →
  (pre_update options db this).2 = Proceed
  ∧ db_calls (pre_update options db this).1 = [].
Proof. apply pre_update_untouched. Qed.

Lemma update_skips_fields_under_operators_witness :
  (pre_update Fixture.defaults Fixture.db Fixture.retitle).2 = Proceed
  ∧ db_calls (pre_update Fixture.defaults Fixture.db Fixture.retitle).1 = [].
Proof.
  apply (update_skips_fields_under_operators Fixture.defaults Fixture.db
           Fixture.retitle
           {[ "title" := VNull; "$set" := VObj {[ "author" := VId Fixture.C ]} ]}).
  - reflexivity.
  - intros rf Hrf. vm_compute in Hrf.
    apply list_elem_of_singleton in Hrf as ->. reflexivity.
Defined.

(** ** The manual validation API *)

Lemma validateReferences_loop (db : Connection) (this : Model)
    (data : gmap string Value) :
  validateReferences db this data
  = for_of_acc (getRefFields (schema this)) [] (manual_step db (get data)).
Proof. done. Qed.

Lemma checkReferences_loop (db : Connection) (this : Document) :
  checkReferences db this
  = for_of_acc (getRefFields (Document_schema this)) []
      (manual_step db (Document_get this)).
Proof. done. Qed.

Lemma for_of_acc_ext {X S} (xs : list X) (acc : S) (body body' : S → X → Async S) :
  (∀ x acc, x ∈ xs → body acc x = body' acc x) →
  for_of_acc xs acc body = for_of_acc xs acc body'.
Proof.
  revert acc. induction xs as [|x xs IH]; intros acc Hext; simpl; [done|].
  rewrite (Hext x acc) by left.
  destruct (body' acc x) as [t [acc'|e]]; [|done].
  rewrite !bind_Ok, IH; [done|]. intros y acc'' Hy. apply Hext. by right.
Qed.

(** The validator throws only what the driver threw, wrapped with the
    field name. *)
Lemma validateReference_Throw (model : Model) (value : Value) (fieldName : string)
    (e : Error) :
  result (validateReference model value fieldName) = Throw e →
  ∃ q cause, find (collection model) q = inl cause
             ∧ e = database_error fieldName cause.
Proof.
  unfold validateReference.
  destruct value as [| |o|items|props]; simpl; try done.
  - unfold Model_exists, driver_call.
    destruct (find (collection model) (QById (VId o))) as [cause|ds] eqn:Hf;
      [|done].
    intros [= <-]. eauto.
  - destruct items as [|o items]; [done|]. simpl.
    unfold countDocuments, driver_call.
    destruct (find (collection model) _) as [cause|ds] eqn:Hf; [|done].
    intros [= <-]. eauto.
  - unfold Model_exists, driver_call.
    destruct (find (collection model) (QById (VObj props))) as [cause|ds] eqn:Hf;
      [|done].
    intros [= <-]. eauto.
Qed.

(** A reachable collection answers every identifier and every array of
    identifiers: a reference that does not resolve is an answer, not an
    error. *)
Lemma validateReference_online (model : Model) (docs : list Doc) (value : Value)
    (fieldName : string) :
  collection model = Online docs →
  (∀ props, value ≠ VObj props) →
  ∃ isValid, result (validateReference model value fieldName) = Ok isValid.
Proof.
  intros Hc Hplain. unfold validateReference.
  destruct value as [| |o|items|props]; simpl; eauto.
  - unfold Model_exists, driver_call, find. rewrite Hc. simpl. eauto.
  - destruct items as [|o items]; simpl; eauto.
    unfold countDocuments, driver_call, find. rewrite Hc. simpl. eauto.
  - by destruct (Hplain props).
Qed.

Section ManualLoop.

Variable db : Connection.
Variable read : string → Value.

Lemma manual_step_skip (results : list ValidationResult.t) (rf : RefField) :
  truthy (read (field rf)) = false →
  manual_step db read results rf = mret results.
Proof. intros H. unfold manual_step. by rewrite H. Qed.

Lemma manual_step_present (results : list ValidationResult.t) (rf : RefField) :
  truthy (read (field rf)) = true →
  manual_step db read results rf
  = validateReference (model db (refTo rf)) (read (field rf)) (field rf) ≫=
      λ isValid,
        mret (push results
                {| ValidationResult.field := field rf;
                   ValidationResult.refTo := refTo rf;
                   ValidationResult.value := read (field rf);
                   ValidationResult.isValid := isValid |}).
Proof. intros H. unfold manual_step. by rewrite H. Qed.

Lemma manual_loop_Ok (refFields : list RefField)
    (acc results : list ValidationResult.t) :
  result (for_of_acc refFields acc (manual_step db read)) = Ok results →
  ∃ new, results = acc ++ new
         ∧ Forall2 (reports db read)
             (List.filter (λ rf, truthy (read (field rf))) refFields) new.
Proof.
  revert acc. induction refFields as [|rf rest IH]; intros acc;
    cbn [for_of_acc List.filter].
  - intros [= <-]. exists []. by rewrite app_nil_r.
  - destruct (truthy (read (field rf))) eqn:Hpresent.
    + rewrite manual_step_present by done.
      rewrite !result_bind.
      destruct (result (validateReference _ _ _)) as [isValid|e] eqn:Hv; [|done].
      async_simpl. intros (new & -> & Hnew)%IH.
      eexists (_ :: new). unfold push. rewrite <- app_assoc. split; [done|].
      by constructor.
    + rewrite manual_step_skip, ret_bind by done. apply IH.
Qed.

Lemma manual_loop_Throw (refFields : list RefField)
    (acc : list ValidationResult.t) (e : Error) :
  result (for_of_acc refFields acc (manual_step db read)) = Throw e →
  ∃ rf, rf ∈ refFields ∧ truthy (read (field rf)) = true
        ∧ result (validateReference (model db (refTo rf)) (read (field rf))
                    (field rf)) = Throw e.
Proof.
  revert acc. induction refFields as [|rf rest IH]; intros acc;
    cbn [for_of_acc]; [done|].
  destruct (truthy (read (field rf))) eqn:Hpresent.
  - rewrite manual_step_present by done.
    rewrite !result_bind.
    destruct (result (validateReference _ _ _)) as [isValid|e'] eqn:Hv.
    + async_simpl. intros (rf' & Hin & H)%IH.
      exists rf'. split; [by right | done].
    + intros [= <-]. exists rf. split_and!; [by left | done..].
  - rewrite manual_step_skip, ret_bind by done.
    intros (rf' & Hin & H)%IH. exists rf'. split; [by right | done].
Qed.

Lemma manual_loop_total (refFields : list RefField)
    (acc : list ValidationResult.t) :
  (∀ rf, rf ∈ refFields → truthy (read (field rf)) = true →
     (∃ docs, collection (model db (refTo rf)) = Online docs)
     ∧ ∀ props, read (field rf) ≠ VObj props) →
  ∃ results, result (for_of_acc refFields acc (manual_step db read)) = Ok results.
Proof.
  intros Hall.
  destruct (result (for_of_acc refFields acc (manual_step db read)))
    as [results|e] eqn:Hr; [by eexists|].
  apply manual_loop_Throw in Hr as (rf & Hin & Hpresent & Hthrow).
  destruct (Hall rf Hin Hpresent) as [[docs Hc] Hplain].
  destruct (validateReference_online _ docs (read (field rf)) (field rf) Hc Hplain)
    as [isValid Hv].
  congruence.
Qed.

Lemma manual_loop_contract (refFields : list RefField) :
  manual_contract db read refFields (for_of_acc refFields [] (manual_step db read)).
Proof.
  split_and!.
  - intros results (new & -> & Hnew)%manual_loop_Ok. done.
  - intros e (rf & Hin & Hpresent & Hthrow)%manual_loop_Throw.
    apply validateReference_Throw in Hthrow as (q & cause & Hf & ->).
    by exists rf, q, cause.
  - apply manual_loop_total.
Qed.

End ManualLoop.

Lemma reports_fields (db : Connection) (read : string → Value)
    (rfs : list RefField) (rs : list ValidationResult.t) :
  Forall2 (reports db read) rfs rs →
  ValidationResult.field <$> rs = field <$> rfs.
Proof.
  induction 1 as [|rf r rfs rs (Hfield & _) _ IH]; [done|].
  rewrite !fmap_cons. by rewrite Hfield, IH.
Qed.

(** C7. Both entry points of the manual API report rather than abort: a
    returned sequence has exactly one entry per reference field whose value
    is present, in extraction order, carrying the validator's answer (so a
    reference that does not resolve is reported with [isValid = false]);
    the only error that leaves them is a lookup failure wrapped as a
    database error for the field; and they return whenever the consulted
    collections are reachable. *)
Theorem manual_api_contract (db : Connection) (M : Model) (D : Document)
    (data : gmap string Value) :
  manual_contract db (get data) (getRefFields (schema M))
    (validateReferences db M data)
  ∧ manual_contract db (Document_get D) (getRefFields (Document_schema D))
      (checkReferences db D)
  ∧ (∀ options,
       statics_validateReferences (ReferenceCheck options) = validateReferences
       ∧ methods_checkReferences (ReferenceCheck options) = checkReferences)
  ∧ result (validateReferences Fixture.db Fixture.Post
              {[ "author" := VId Fixture.C ]})
    = Ok [ {| ValidationResult.field := "author";
              ValidationResult.refTo := "User";
              ValidationResult.value := VId Fixture.C;
              ValidationResult.isValid := false |} ].
Proof.
  split_and!.
  - rewrite validateReferences_loop. apply manual_loop_contract.
  - rewrite checkReferences_loop. apply manual_loop_contract.
  - done.
  - by vm_compute.
Qed.

(** C10. On a document and a data object that agree on every reference
    field of the schema, [checkReferences] and [validateReferences] are the
    same computation: same lookups, same outcome, and the same entries, one
    per present reference field in extraction order. *)
Theorem checkReferences_validateReferences (db : Connection) (D : Document)
    (M : Model) (data : gmap string Value) :
  Document_schema D = schema M →
  (∀ rf, rf ∈ getRefFields (schema M) →
         get data (field rf) = Document_get D (field rf)) →
  checkReferences db D = validateReferences db M data
  ∧ ∀ results, result (checkReferences db D) = Ok results →
      ValidationResult.field <$> results
      = field <$> List.filter (λ rf, truthy (Document_get D (field rf)))
                    (getRefFields (schema M)).
Proof.
  intros Hschema Hagree. split.
  - rewrite checkReferences_loop, validateReferences_loop, Hschema.
    apply for_of_acc_ext. intros rf acc Hrf. unfold manual_step.
    by rewrite (Hagree rf Hrf).
  - intros results Hok.
    destruct (manual_loop_contract db (Document_get D)
                (getRefFields (Document_schema D))) as [Hentries _].
    rewrite <- checkReferences_loop in Hentries.
    specialize (Hentries results Hok). rewrite Hschema in Hentries.
    by apply reports_fields in Hentries.
Qed.

Lemma checkReferences_validateReferences_witness :
  checkReferences Fixture.db Fixture.draft
  = validateReferences Fixture.db Fixture.Post {[ "author" := VId Fixture.C ]}.
Proof.
  apply (checkReferences_validateReferences Fixture.db Fixture.draft Fixture.Post
           {[ "author" := VId Fixture.C ]}).
  - reflexivity.
  - intros rf Hrf. vm_compute in Hrf.
    apply list_elem_of_singleton in Hrf as ->. reflexivity.
Defined.

(** ** The delete path *)

Lemma db_calls_id (t : list Event) :
  Forall (λ ev, is_db_call ev = true) t → db_calls t = t.
Proof.
  induction 1 as [|ev t Hev _ IH]; [done|].
  unfold db_calls in *. simpl. by rewrite Hev, IH.
Qed.

Section DeleteScan.

Variable db : Connection.
Variable deletingItem : Doc.

Lemma scan_events (refModel : RefModel.t) :
  events (scan db deletingItem refModel)
  = [scan_event db (_id deletingItem) refModel].
Proof.
  unfold scan, aggregate, driver_call. rewrite events_bind.
  unfold events, result. cbn [fst snd].
  destruct (find _ _) as [e|ds]; [done|].
  by case_bool_decide.
Qed.

Lemma scan_result (refModel : RefModel.t) :
  result (scan db deletingItem refModel)
  = match result (scan_query db (_id deletingItem) refModel) with
    | Ok [] => Ok tt
    | Ok (_ :: _) =>
        Throw (cannot_delete (_id deletingItem) (RefModel.modelName refModel))
    | Throw e => Throw e
    end.
Proof.
  unfold scan, scan_query. rewrite result_bind.
  destruct (result (aggregate _ _ _)) as [[|d ds]|e]; [done| |done].
  rewrite bool_decide_eq_true_2; [done | simpl; lia].
Qed.

Lemma scan_loop_events (refModels : list RefModel.t) :
  ∃ n, events (for_of refModels (scan db deletingItem))
       = scan_event db (_id deletingItem) <$> take n refModels.
Proof.
  induction refModels as [|rm rest [n IH]]; [by exists 0|].
  cbn [for_of]. rewrite events_bind, scan_events.
  destruct (result (scan db deletingItem rm)) as [[]|e].
  - exists (S n). by rewrite IH.
  - by exists 1.
Qed.

Lemma scan_loop_result (refModels : list RefModel.t) :
  result (for_of refModels (scan db deletingItem)) = Ok tt ↔
  ∀ rm, rm ∈ refModels → result (scan_query db (_id deletingItem) rm) = Ok [].
Proof.
  induction refModels as [|rm rest IH]; cbn [for_of].
  - split; [|done]. by intros _ rm ?%elem_of_nil.
  - rewrite result_bind, scan_result. split.
    + intros Hok rm' [->|Hin]%elem_of_cons.
      * by destruct (result (scan_query _ _ rm)) as [[|d ds]|e].
      * destruct (result (scan_query _ _ rm)) as [[|d ds]|e]; [|done..].
        by apply IH.
    + intros Hall. rewrite (Hall rm) by left. apply IH.
      intros rm' Hin. apply Hall. by right.
Qed.

End DeleteScan.

Lemma findOne_found (m : Model) (q : Query) (d : Doc) (rest : list Doc) :
  find (collection m) q = inr (d :: rest) →
  findOne m q = ([FindOne (modelName m) q], Ok (Some d)).
Proof. intros Hf. unfold findOne, driver_call. by rewrite Hf. Qed.

(** C5. When the query of a delete matches several documents, the
    middleware resolves the first one and every scan it issues compares
    with that document's identifier; the delete is let through exactly
    when those scans find nothing, whatever references the other matched
    documents. *)
Theorem pre_delete_scans_first_match (options : ReferenceCheckOptions option)
    (db : Connection) (this : QueryThis) (d : Doc) (rest : list Doc) :
  find (collection (Query_model this)) (getQuery this) = inr (d :: rest) →
  let refModels := referencing_models db (modelName (Query_model this)) in
  (∃ n, db_calls (pre_delete options db this).1
        = FindOne (modelName (Query_model this)) (getQuery this)
          :: (scan_event db (_id d) <$> take n refModels))
  ∧ ((pre_delete options db this).2 = Proceed ↔
     ∀ rm, rm ∈ refModels → result (scan_query db (_id d) rm) = Ok []).
Proof.
  intros Hfind refModels.
  assert (Hbody : pre_delete options db this
    = middleware
        (log options ("Checking references before deleting from "
                      +:+ modelName (Query_model this));;
         emit (FindOne (modelName (Query_model this)) (getQuery this));;
         if bool_decide (length refModels = 0)
         then log options "No references found, safe to delete"
         else (for_of refModels (scan db d);;
               log options "Delete validation completed successfully"))).
  { unfold pre_delete. by rewrite (findOne_found _ _ d rest Hfind). }
  assert (Hfirst : ∀ ev t, is_db_call ev = true →
                           db_calls (ev :: t) = ev :: db_calls t).
  { intros ev t Hev. unfold db_calls. simpl. by rewrite Hev. }
  rewrite Hbody. clear Hbody. case_bool_decide as Hnone.
  - apply length_zero_iff_nil in Hnone. rewrite Hnone.
    async_simpl. rewrite Hfirst by done. async_simpl. split.
    + by exists 0.
    + split; [|done]. by intros _ rm ?%elem_of_nil.
  - destruct (scan_loop_events db d refModels) as [n Hevents].
    pose proof (scan_loop_result db d refModels) as Hresult.
    async_simpl. rewrite Hfirst by done. async_simpl.
    split.
    + exists n. rewrite Hevents. f_equal.
      rewrite (db_calls_id (scan_event db (_id d) <$> take n refModels)).
      2:{ apply Forall_fmap, Forall_true. done. }
      destruct (result (for_of refModels (scan db d))) as [[]|e];
        by async_simpl.
    + rewrite <- Hresult.
      destruct (result (for_of refModels (scan db d))) as [[]|e];
        by async_simpl.
Qed.

Lemma pre_delete_scans_first_match_witness :
  (∃ n, db_calls (pre_delete Fixture.defaults Fixture.db Fixture.deleteAll).1
        = FindOne "User" QAll
          :: (scan_event Fixture.db Fixture.A
                <$> take n (referencing_models Fixture.db "User")))
  ∧ ((pre_delete Fixture.defaults Fixture.db Fixture.deleteAll).2 = Proceed ↔
     ∀ rm, rm ∈ referencing_models Fixture.db "User" →
           result (scan_query Fixture.db Fixture.A rm) = Ok []).
Proof.
  apply (pre_delete_scans_first_match Fixture.defaults Fixture.db Fixture.deleteAll
           {| _id := Fixture.A; fields := ∅ |}
           [ {| _id := Fixture.B; fields := ∅ |} ]).
  reflexivity.
Defined.

(** [User.deleteMany({})] matches [A] and [B]; [B] is the author of a
    stored post, yet only [A] is scanned and the delete is let through. *)
Example deleteMany_scans_A_only :
  pre_delete Fixture.defaults Fixture.db Fixture.deleteAll
  = ([FindOne "User" QAll;
      Aggregate "Post" (QOr [("author", Fixture.A)]) 1], Proceed)
  ∧ (pre_delete Fixture.defaults Fixture.db Fixture.deleteB).2
    = Abort (cannot_delete Fixture.B "Post").
Proof. split; by vm_compute. Qed.

(** ** The save path *)

Lemma prefix_nil (s : string) : String.prefix "" s = true.
Proof. by destruct s. Qed.

Lemma prefix_app (s t : string) : String.prefix s (s +:+ t) = true.
Proof.
  induction s as [|a s IH]; [apply prefix_nil|]. simpl.
  by destruct (Ascii.ascii_dec a a).
Qed.

Lemma contains_intro (needle pre post : string) :
  contains needle (pre +:+ needle +:+ post) = true.
Proof.
  induction pre as [|a pre IH].
  - change ("" +:+ needle +:+ post) with (needle +:+ post).
    pose proof (prefix_app needle post) as Hprefix.
    destruct (needle +:+ post); cbn [contains]; by rewrite Hprefix.
  - change (String a pre +:+ needle +:+ post)
      with (String a (pre +:+ needle +:+ post)).
    cbn [contains]. rewrite IH. apply orb_true_r.
Qed.

Lemma append_cons (a : Ascii.ascii) (s t : string) :
  String a s +:+ t = String a (s +:+ t).
Proof. done. Qed.

Lemma append_assoc (s t u : string) : (s +:+ t) +:+ u = s +:+ t +:+ u.
Proof.
  induction s as [|a s IH]; [done|]. by rewrite !append_cons, IH.
Qed.

Lemma append_nil_r (s : string) : s +:+ "" = s.
Proof.
  induction s as [|a s IH]; [done|]. by rewrite append_cons, IH.
Qed.

(** The message of a failed validation prints the value and the target
    model. *)
Lemma reference_validation_failed_names (value : Value) (target : string) :
  contains (show value) (message (reference_validation_failed value target)) = true
  ∧ contains target (message (reference_validation_failed value target)) = true.
Proof.
  unfold reference_validation_failed. cbn [message]. split.
  - apply contains_intro.
  - rewrite <- (append_nil_r target) at 2.
    rewrite <- !append_assoc. rewrite append_assoc. apply contains_intro.
Qed.

Lemma for_of_app {X} (xs ys : list X) (body : X → Async unit) :
  for_of (xs ++ ys) body = for_of xs body ≫= λ _, for_of ys body.
Proof.
  induction xs as [|x xs IH]; cbn [for_of app].
  - by rewrite ret_bind.
  - by rewrite IH, bind_assoc.
Qed.

Lemma validateReference_db_calls (model : Model) (value : Value)
    (fieldName : string) :
  db_calls (events (validateReference model value fieldName))
  = events (validateReference model value fieldName).
Proof.
  apply db_calls_id. unfold validateReference.
  destruct value as [| |o|items|props]; simpl; try by constructor.
  - unfold Model_exists, driver_call.
    destruct (find _ _); repeat constructor.
  - destruct items; simpl; [by constructor|].
    unfold countDocuments, driver_call.
    destruct (find _ _); repeat constructor.
  - unfold Model_exists, driver_call.
    destruct (find _ _); repeat constructor.
Qed.

Section SaveLoop.

Variable db : Connection.
Variable this : Document.

Lemma db_calls_lookups (refFields : list RefField) :
  db_calls (flat_map (lookups db (Document_get this)) refFields)
  = flat_map (lookups db (Document_get this)) refFields.
Proof.
  induction refFields as [|rf rest IH]; [done|]. cbn [flat_map].
  rewrite db_calls_app, IH. f_equal. unfold lookups.
  destruct (truthy _); [apply validateReference_db_calls | done].
Qed.

Lemma save_step_events (rf : RefField) :
  events (save_step db this rf) = lookups db (Document_get this) rf.
Proof.
  unfold save_step, lookups.
  destruct (truthy (Document_get this (field rf))); [|done]. cbn [negb].
  rewrite events_bind.
  destruct (result (validateReference _ _ _)) as [[]|e]; by rewrite app_nil_r.
Qed.

Lemma save_step_result (rf : RefField) :
  result (save_step db this rf)
  = if truthy (Document_get this (field rf)) then
      match result (validateReference (model db (refTo rf))
                      (Document_get this (field rf)) (field rf)) with
      | Ok true => Ok tt
      | Ok false =>
          Throw (reference_validation_failed (Document_get this (field rf))
                   (refTo rf))
      | Throw e => Throw e
      end
    else Ok tt.
Proof.
  unfold save_step.
  destruct (truthy (Document_get this (field rf))); [|done]. cbn [negb].
  rewrite result_bind.
  by destruct (result (validateReference _ _ _)) as [[]|e].
Qed.

Lemma save_loop_pass (refFields : list RefField) :
  (∀ rf, rf ∈ refFields → truthy (Document_get this (field rf)) = true →
     result (validateReference (model db (refTo rf))
               (Document_get this (field rf)) (field rf)) = Ok true) →
  events (for_of refFields (save_step db this))
  = flat_map (lookups db (Document_get this)) refFields
  ∧ result (for_of refFields (save_step db this)) = Ok tt.
Proof.
  induction refFields as [|rf rest IH]; intros Hpass; [done|].
  cbn [for_of flat_map].
  assert (Hrf : result (save_step db this rf) = Ok tt).
  { rewrite save_step_result.
    destruct (truthy (Document_get this (field rf))) eqn:Hpresent; [|done].
    by rewrite Hpass; [|left|]. }
  destruct IH as [IHe IHr]; [intros ? ?; apply Hpass; by right|].
  by rewrite events_bind, result_bind, Hrf, save_step_events, IHe, IHr.
Qed.

End SaveLoop.

(** C6, as amended. When the reference fields before one all pass and
    that one holds a value the validator answers invalid, the save is
    aborted there: the lookups are those of the fields up to and including
    it, none of a later field, and the message of the error is built from
    the offending value and the target model only: it reads "Reference
    validation failed: The value", the value, "does not exist within", the
    target. *)
Theorem pre_save_aborts_at_first_invalid (options : ReferenceCheckOptions option)
    (db : Connection) (this : Document)
    (before : list RefField) (fieldObj : RefField) (after : list RefField) :
  getRefFields (Document_schema this) = before ++ fieldObj :: after →
  (∀ rf, rf ∈ before → truthy (Document_get this (field rf)) = true →
     result (validateReference (model db (refTo rf))
               (Document_get this (field rf)) (field rf)) = Ok true) →
  truthy (Document_get this (field fieldObj)) = true →
  result (validateReference (model db (refTo fieldObj))
            (Document_get this (field fieldObj)) (field fieldObj)) = Ok false →
  let value := Document_get this (field fieldObj) in
  let error := reference_validation_failed value (refTo fieldObj) in
  (pre_save options db this).2 = Abort error
  ∧ db_calls (pre_save options db this).1
    = flat_map (lookups db (Document_get this)) (before ++ [fieldObj])
  ∧ message error
    = "Reference validation failed: The value " +:+ show value
      +:+ " does not exist within " +:+ refTo fieldObj
  ∧ contains (show value) (message error) = true
  ∧ contains (refTo fieldObj) (message error) = true.
Proof.
  intros Hfields Hbefore Hpresent Hinvalid value error.
  destruct (reference_validation_failed_names value (refTo fieldObj))
    as [Hvalue Htarget].
  destruct (save_loop_pass db this before Hbefore) as [Hev Hres].
  assert (Hstep : result (save_step db this fieldObj) = Throw error).
  { rewrite save_step_result, Hpresent, Hinvalid. done. }
  assert (Hbody : pre_save options db this
    = middleware
        (log options ("Validating "
                      +:+ show_nat (length (before ++ fieldObj :: after))
                      +:+ " reference fields on save");;
         for_of (before ++ fieldObj :: after) (save_step db this);;
         log options "Save validation completed successfully")).
  { unfold pre_save. rewrite Hfields.
    rewrite bool_decide_eq_false_2; [done|].
    rewrite length_app. simpl. lia. }
  rewrite Hbody. clear Hbody.
  rewrite for_of_app. cbn [for_of].
  split_and!; [| |done..].
  - async_simpl. rewrite Hres, Hstep. done.
  - async_simpl. rewrite Hres, Hstep, Hev, save_step_events. async_simpl.
    pose proof (db_calls_lookups db this [fieldObj]) as Hlast.
    cbn [flat_map] in Hlast. rewrite !app_nil_r in Hlast.
    rewrite db_calls_lookups, Hlast, flat_map_app. cbn [flat_map].
    by rewrite app_nil_r.
Qed.

Lemma pre_save_aborts_at_first_invalid_witness :
  (pre_save Fixture.defaults Fixture.db Fixture.draft).2
  = Abort (reference_validation_failed (VId Fixture.C) "User")
  ∧ db_calls (pre_save Fixture.defaults Fixture.db Fixture.draft).1
    = flat_map (lookups Fixture.db (Document_get Fixture.draft))
        ([] ++ [{| field := "author"; refTo := "User" |}])
  ∧ message (reference_validation_failed (VId Fixture.C) "User")
    = "Reference validation failed: The value " +:+ show (VId Fixture.C)
      +:+ " does not exist within " +:+ "User"
  ∧ contains (show (VId Fixture.C))
      (message (reference_validation_failed (VId Fixture.C) "User")) = true
  ∧ contains "User"
      (message (reference_validation_failed (VId Fixture.C) "User")) = true.
Proof.
  apply (pre_save_aborts_at_first_invalid Fixture.defaults Fixture.db Fixture.draft
           [] {| field := "author"; refTo := "User" |} []).
  - reflexivity.
  - intros rf Hrf. by apply elem_of_nil in Hrf.
  - reflexivity.
  - reflexivity.
Defined.

(** C6 fails as stated: saving a post whose [author] is not a stored user
    is aborted with a message that prints the value and the target model;
    the name of the offending field, [author], does not occur in it. *)
Lemma save_error_omits_field :
  getRefFields (Document_schema Fixture.draft)
  = [{| field := "author"; refTo := "User" |}]
  ∧ (pre_save Fixture.defaults Fixture.db Fixture.draft).2
    = Abort (reference_validation_failed (VId Fixture.C) "User")
  ∧ message (reference_validation_failed (VId Fixture.C) "User")
    = "Reference validation failed: The value c does not exist within User"
  ∧ contains "author"
      (message (reference_validation_failed (VId Fixture.C) "User")) = false.
Proof. split_and!; by vm_compute. Qed.

(** ** More on the existence validator *)

(** X1. The validator makes at most one call to the driver, and none
    exactly when the value is absent or an empty array; in that case it
    answers valid. *)
Theorem validateReference_one_lookup (model : Model) (value : Value)
    (fieldName : string) :
  (length (events (validateReference model value fieldName)) ≤ 1)%nat
  ∧ (events (validateReference model value fieldName) = [] ↔
     truthy value = false ∨ value = VArr [])
  ∧ (events (validateReference model value fieldName) = [] →
     result (validateReference model value fieldName) = Ok true).
Proof.
  unfold validateReference.
  destruct value as [| |o|items|props]; simpl.
  - split_and!; [lia | by split; [left|] | done].
  - split_and!; [lia | by split; [left|] | done].
  - unfold Model_exists, driver_call.
    destruct (find _ _); simpl; (split_and!; [lia | split; [done | by intros [|]] | done]).
  - destruct items as [|o items]; simpl.
    + split_and!; [lia | by split; [right|] | done].
    + unfold countDocuments, driver_call.
      destruct (find _ _); simpl;
        (split_and!; [lia | split; [done | by intros [|]] | done]).
  - unfold Model_exists, driver_call.
    destruct (find _ _); simpl; (split_and!; [lia | split; [done | by intros [|]] | done]).
Qed.

Lemma validateReference_scalar_online (model : Model) (docs : list Doc)
    (o : ObjectId) (fieldName : string) :
  collection model = Online docs →
  validateReference model (VId o) fieldName
  = ([Exists (modelName model) (QById (VId o))],
     Ok (bool_decide
           (head (List.filter (matches (QById (VId o))) docs) ≠ None))).
Proof.
  intros Hc. unfold validateReference. simpl.
  unfold Model_exists, driver_call, find. rewrite Hc. simpl.
  do 2 f_equal. rewrite !bool_decide_is_Some.
  by destruct (head _).
Qed.

Lemma scalar_found (docs : list Doc) (o : ObjectId) :
  head (List.filter (matches (QById (VId o))) docs) ≠ None ↔
  ∃ d, d ∈ docs ∧ toString (_id d) = toString o.
Proof.
  pose proof (head_filter_Some (matches (QById (VId o))) docs) as Hhead.
  split.
  - intros Hsome. destruct Hhead as [Hhead _].
    destruct Hhead as (d & Hd & Hm).
    { destruct (head _); [by eexists | done]. }
    exists d. split; [done|]. by apply bool_decide_eq_true in Hm.
  - intros (d & Hd & Heq). destruct Hhead as [_ Hhead].
    destruct Hhead as [d' Hd'].
    { exists d. split; [done|]. by apply bool_decide_eq_true. }
    by rewrite Hd'.
Qed.

(** X2. On a reachable collection a single identifier is looked up with
    one [exists] call on [{ _id: value }] and is valid exactly when a
    stored document has that identifier (compared by string form); the
    answer is never an error. *)
Theorem scalar_valid_iff_stored (model : Model) (docs : list Doc)
    (o : ObjectId) (fieldName : string) :
  collection model = Online docs →
  events (validateReference model (VId o) fieldName)
  = [Exists (modelName model) (QById (VId o))]
  ∧ ∃ isValid,
      result (validateReference model (VId o) fieldName) = Ok isValid
      ∧ (isValid = true ↔ ∃ d, d ∈ docs ∧ toString (_id d) = toString o).
Proof.
  intros Hc. rewrite (validateReference_scalar_online model docs o fieldName Hc).
  split; [done|]. eexists. split; [done|].
  rewrite bool_decide_eq_true. apply scalar_found.
Qed.

Lemma scalar_valid_iff_stored_witness :
  events (validateReference Fixture.User (VId Fixture.C) "author")
  = [Exists "User" (QById (VId Fixture.C))]
  ∧ ∃ isValid,
      result (validateReference Fixture.User (VId Fixture.C) "author")
      = Ok isValid
      ∧ (isValid = true ↔
         ∃ d, d ∈ [ {| _id := Fixture.A; fields := ∅ |};
                    {| _id := Fixture.B; fields := ∅ |} ]
              ∧ toString (_id d) = toString Fixture.C).
Proof.
  apply (scalar_valid_iff_stored Fixture.User _ Fixture.C "author").
  reflexivity.
Defined.

(** X3. With unique [_id]s in a reachable collection, an identifier
    validates like the array that holds just that identifier. *)
Theorem scalar_as_singleton_array (model : Model) (docs : list Doc)
    (o : ObjectId) (fieldName : string) :
  collection model = Online docs →
  NoDup (toString ∘ _id <$> docs) →
  result (validateReference model (VId o) fieldName)
  = result (validateReference model (VArr [o]) fieldName).
Proof.
  intros Hc Hunique.
  rewrite (validateReference_scalar_online model docs o fieldName Hc).
  rewrite (validateReference_array_online model docs [o] fieldName Hc).
  unfold result. cbn [snd]. f_equal. apply bool_decide_ext.
  rewrite scalar_found.
  rewrite (count_eq_all_exist docs _ Hunique (Set_new_NoDup _)).
  split.
  - intros (d & Hd & Heq) s Hs. apply Set_new_elem in Hs.
    apply list_elem_of_singleton in Hs as ->. by exists d.
  - intros Hall. apply Hall, Set_new_elem. by left.
Qed.

Lemma scalar_as_singleton_array_witness :
  result (validateReference Fixture.User (VId Fixture.A') "author")
  = result (validateReference Fixture.User (VArr [Fixture.A']) "author").
Proof.
  apply (scalar_as_singleton_array Fixture.User
           [ {| _id := Fixture.A; fields := ∅ |};
             {| _id := Fixture.B; fields := ∅ |} ]).
  - reflexivity.
  - vm_compute. repeat constructor; set_solver.
Defined.

Lemma same_set_same_length (l l' : list string) :
  NoDup l → NoDup l' → (∀ s, s ∈ l ↔ s ∈ l') → length l = length l'.
Proof.
  intros Hl Hl' Hsame. apply Permutation_length. by apply NoDup_Permutation.
Qed.

(** X4. The answer for an array depends only on the set of string forms
    of its identifiers: order and repetition do not matter, on any
    collection, reachable or not. *)
Theorem array_validation_ignores_order (model : Model)
    (items items' : list ObjectId) (fieldName : string) :
  (∀ s, s ∈ toString <$> items ↔ s ∈ toString <$> items') →
  result (validateReference model (VArr items) fieldName)
  = result (validateReference model (VArr items') fieldName).
Proof.
  intros Hsame.
  assert (Huniq : ∀ s, s ∈ Set_new (toString <$> items)
                       ↔ s ∈ Set_new (toString <$> items')).
  { intros s. by rewrite !Set_new_elem. }
  destruct (collection model) as [docs|reason] eqn:Hc.
  - rewrite (validateReference_array_online model docs items fieldName Hc).
    rewrite (validateReference_array_online model docs items' fieldName Hc).
    unfold result. cbn [snd]. f_equal.
    rewrite (filter_matches_same_ids _ _ docs Huniq).
    by rewrite (same_set_same_length _ _ (Set_new_NoDup _) (Set_new_NoDup _) Huniq).
  - destruct items as [|o items], items' as [|o' items'].
    + done.
    + specialize (Hsame (toString o')). rewrite fmap_cons in Hsame.
      destruct Hsame as [_ Hin]. by apply elem_of_nil in Hin; [|left].
    + specialize (Hsame (toString o)). rewrite fmap_cons in Hsame.
      destruct Hsame as [Hin _]. by apply elem_of_nil in Hin; [|left].
    + destruct (validateReference_array_offline model reason ""
                  o items fieldName Hc) as [-> _].
      by destruct (validateReference_array_offline model reason ""
                     o' items' fieldName Hc) as [-> _].
Qed.

Lemma array_validation_ignores_order_witness :
  result (validateReference Fixture.User
            (VArr [Fixture.A; Fixture.A'; Fixture.B]) "tags")
  = result (validateReference Fixture.User (VArr [Fixture.B; Fixture.A]) "tags").
Proof.
  apply (array_validation_ignores_order Fixture.User
           [Fixture.A; Fixture.A'; Fixture.B] [Fixture.B; Fixture.A] "tags").
  intros s. cbn. set_solver.
Defined.

(** X5. What the validator throws is the driver's error wrapped with the
    field name, [Database error validating <field>: <message>]; and on an
    unreachable collection it never answers invalid: it answers valid
    without a lookup, or throws. *)
Theorem lookup_failure_is_wrapped :
  (∀ (model : Model) (value : Value) (fieldName : string) (e : Error),
     result (validateReference model value fieldName) = Throw e →
     ∃ q cause,
       find (collection model) q = inl cause
       ∧ message e = "Database error validating " +:+ fieldName +:+ ": "
                     +:+ message cause)
  ∧ (∀ (model : Model) (reason : string) (value : Value) (fieldName : string),
       collection model = Offline reason →
       (events (validateReference model value fieldName) = []
        ∧ result (validateReference model value fieldName) = Ok true)
       ∨ result (validateReference model value fieldName)
         = Throw (database_error fieldName {| message := reason |})).
Proof.
  split.
  - intros model value fieldName e (q & cause & Hf & ->)%validateReference_Throw.
    by exists q, cause.
  - intros model reason value fieldName Hc. unfold validateReference.
    destruct value as [| |o|items|props]; simpl; try by left.
    + right. unfold Model_exists, driver_call, find. by rewrite Hc.
    + destruct items as [|o items]; [by left|]. right. simpl.
      unfold countDocuments, driver_call, find. by rewrite Hc.
    + right. unfold Model_exists, driver_call, find. by rewrite Hc.
Qed.

Lemma lookup_failure_is_wrapped_witness :
  (events (validateReference Fixture.UserDown (VId Fixture.A) "author") = []
   ∧ result (validateReference Fixture.UserDown (VId Fixture.A) "author") = Ok true)
  ∨ result (validateReference Fixture.UserDown (VId Fixture.A) "author")
    = Throw (database_error "author" {| message := "connection refused" |}).
Proof.
  destruct lookup_failure_is_wrapped as [_ H].
  apply (H Fixture.UserDown "connection refused" (VId Fixture.A) "author").
  reflexivity.
Defined.

(** ** More on the save path *)

(** A middleware of the form "log, loop, log": the console lines change
    neither how it ends nor what it asks the driver. *)
Lemma logged_loop_next (options : ReferenceCheckOptions option)
    (before after : string) (loop : Async unit) :
  (middleware (log options before;; loop;; log options after)).2
  = match result loop with Ok _ => Proceed | Throw e => Abort e end.
Proof.
  async_simpl. destruct (result loop) as [[]|e]; by async_simpl.
Qed.

Lemma logged_loop_db_calls (options : ReferenceCheckOptions option)
    (before after : string) (loop : Async unit) :
  db_calls (middleware (log options before;; loop;; log options after)).1
  = db_calls (events loop).
Proof.
  async_simpl. destruct (result loop) as [[]|e]; by async_simpl.
Qed.

Lemma for_of_db_calls {X} (xs : list X) (body : X → Async unit) :
  (∀ x, db_calls (events (body x)) = events (body x)) →
  db_calls (events (for_of xs body)) = events (for_of xs body).
Proof.
  intros Hbody. induction xs as [|x xs IH]; [done|].
  cbn [for_of]. rewrite events_bind, db_calls_app, Hbody.
  destruct (result (body x)); [by rewrite IH | done].
Qed.

Section SaveOutcome.

Variable options : ReferenceCheckOptions option.
Variable db : Connection.
Variable this : Document.

Let refFields := getRefFields (Document_schema this).

Lemma pre_save_next :
  (pre_save options db this).2
  = match result (for_of refFields (save_step db this)) with
    | Ok _ => Proceed
    | Throw e => Abort e
    end.
Proof.
  unfold pre_save. fold refFields. case_bool_decide as Hnone.
  - apply length_zero_iff_nil in Hnone. by rewrite Hnone.
  - apply (logged_loop_next options).
Qed.

Lemma pre_save_db_calls :
  db_calls (pre_save options db this).1
  = events (for_of refFields (save_step db this)).
Proof.
  rewrite <- for_of_db_calls.
  2:{ intros rf. rewrite save_step_events. unfold lookups.
      destruct (truthy _); [apply validateReference_db_calls | done]. }
  unfold pre_save. fold refFields. case_bool_decide as Hnone.
  - apply length_zero_iff_nil in Hnone. by rewrite Hnone.
  - apply (logged_loop_db_calls options).
Qed.

Lemma save_loop_Ok (fs : list RefField) :
  result (for_of fs (save_step db this)) = Ok tt ↔
  ∀ rf, rf ∈ fs → truthy (Document_get this (field rf)) = true →
    result (validateReference (model db (refTo rf))
              (Document_get this (field rf)) (field rf)) = Ok true.
Proof.
  split; [|apply save_loop_pass].
  induction fs as [|rf rest IH]; [by intros _ rf' ?%elem_of_nil|].
  cbn [for_of]. rewrite result_bind, save_step_result.
  intros Hok rf' [->|Hin]%elem_of_cons Hpresent.
  - rewrite Hpresent in Hok.
    by destruct (result (validateReference _ _ _)) as [[]|e].
  - apply IH; [|done..].
    destruct (truthy (Document_get this (field rf))); [|done].
    by destruct (result (validateReference _ _ _)) as [[]|e].
Qed.

Lemma save_loop_Throw (fs : list RefField) (e : Error) :
  result (for_of fs (save_step db this)) = Throw e →
  ∃ rf, rf ∈ fs ∧ truthy (Document_get this (field rf)) = true
        ∧ let answer := result (validateReference (model db (refTo rf))
                                  (Document_get this (field rf)) (field rf)) in
          (answer = Ok false
           ∧ e = reference_validation_failed (Document_get this (field rf))
                   (refTo rf))
          ∨ answer = Throw e.
Proof.
  induction fs as [|rf rest IH]; [done|].
  cbn [for_of]. rewrite result_bind, save_step_result.
  destruct (truthy (Document_get this (field rf))) eqn:Hpresent.
  - destruct (result (validateReference _ _ _)) as [[]|e'] eqn:Hv.
    + intros (rf' & Hin & H)%IH. exists rf'. split; [by right | done].
    + intros [= <-]. exists rf. split_and!; [by left | done |].
      cbv zeta. rewrite Hv. by left.
    + intros [= <-]. exists rf. split_and!; [by left | done |].
      cbv zeta. rewrite Hv. by right.
  - intros (rf' & Hin & H)%IH. exists rf'. split; [by right | done].
Qed.

End SaveOutcome.

(** X6. A save proceeds exactly when every reference field that holds a
    value validates; the driver is then asked once per such field, in
    extraction order. *)
Theorem save_proceeds_iff_all_valid (options : ReferenceCheckOptions option)
    (db : Connection) (this : Document) :
  ((pre_save options db this).2 = Proceed ↔
   ∀ rf, rf ∈ getRefFields (Document_schema this) →
     truthy (Document_get this (field rf)) = true →
     result (validateReference (model db (refTo rf))
               (Document_get this (field rf)) (field rf)) = Ok true)
  ∧ ((pre_save options db this).2 = Proceed →
     db_calls (pre_save options db this).1
     = flat_map (lookups db (Document_get this))
         (getRefFields (Document_schema this))).
Proof.
  split.
  - rewrite pre_save_next, <- save_loop_Ok.
    by destruct (result (for_of _ _)) as [[]|e].
  - rewrite pre_save_next, pre_save_db_calls.
    destruct (result (for_of _ _)) as [[]|e] eqn:Hr; [|done]. intros _.
    apply save_loop_pass. exact (proj1 (save_loop_Ok db this _) Hr).
Qed.

(** X7. A save is aborted only for two reasons, each tied to a reference
    field that holds a value: the validator answered invalid, and the error
    is the validation failure for that value and target; or the lookup
    failed, and the error is the database error for that field. *)
Theorem save_abort_reasons (options : ReferenceCheckOptions option)
    (db : Connection) (this : Document) (e : Error) :
  (pre_save options db this).2 = Abort e →
  ∃ rf, rf ∈ getRefFields (Document_schema this)
        ∧ truthy (Document_get this (field rf)) = true
        ∧ ((result (validateReference (model db (refTo rf))
                      (Document_get this (field rf)) (field rf)) = Ok false
            ∧ e = reference_validation_failed (Document_get this (field rf))
                    (refTo rf))
           ∨ ∃ q cause, find (collection (model db (refTo rf))) q = inl cause
                        ∧ e = database_error (field rf) cause).
Proof.
  rewrite pre_save_next.
  destruct (result (for_of _ _)) as [[]|e'] eqn:Hr; [done|].
  intros [= <-]. apply save_loop_Throw in Hr as (rf & Hin & Hpresent & Hwhy).
  exists rf. split_and!; [done..|]. cbv zeta in Hwhy.
  destruct Hwhy as [?|Hthrow]; [by left|]. right.
  by apply validateReference_Throw in Hthrow.
Qed.

Lemma save_abort_reasons_witness :
  ∃ rf, rf ∈ getRefFields (Document_schema Fixture.article)
        ∧ truthy (Document_get Fixture.article (field rf)) = true
        ∧ ((result (validateReference (model Fixture.dbDown (refTo rf))
                      (Document_get Fixture.article (field rf)) (field rf))
            = Ok false
            ∧ database_error "author" {| message := "connection refused" |}
              = reference_validation_failed
                  (Document_get Fixture.article (field rf)) (refTo rf))
           ∨ ∃ q cause,
               find (collection (model Fixture.dbDown (refTo rf))) q = inl cause
               ∧ database_error "author" {| message := "connection refused" |}
                 = database_error (field rf) cause).
Proof.
  apply (save_abort_reasons Fixture.defaults Fixture.dbDown Fixture.article).
  reflexivity.
Defined.

Lemma reports_all_valid (db : Connection) (read : string → Value)
    (rfs : list RefField) (rs : list ValidationResult.t) :
  Forall2 (reports db read) rfs rs →
  Forall (λ r, ValidationResult.isValid r = true) rs ↔
  ∀ rf, rf ∈ rfs →
    result (validateReference (model db (refTo rf)) (read (field rf)) (field rf))
    = Ok true.
Proof.
  induction 1 as [|rf r rfs rs (_ & _ & _ & Hanswer) _ IH].
  - split; [by intros _ rf ?%elem_of_nil | by constructor].
  - rewrite Forall_cons, IH. split.
    + intros [Hvalid Hrest] rf' [->|Hin]%elem_of_cons; [|by apply Hrest].
      by rewrite Hanswer, Hvalid.
    + intros Hall. split.
      * specialize (Hall rf (list_elem_of_here _ _)).
        rewrite Hanswer in Hall. by injection Hall.
      * intros rf' Hin. apply Hall. by right.
Qed.

(** X8. The save middleware and [checkReferences] agree on a document:
    the save proceeds exactly when the check returns and every entry it
    reports is valid. *)
Theorem save_proceeds_iff_check_clean (options : ReferenceCheckOptions option)
    (db : Connection) (this : Document) :
  (pre_save options db this).2 = Proceed ↔
  ∃ results, result (checkReferences db this) = Ok results
             ∧ Forall (λ r, ValidationResult.isValid r = true) results.
Proof.
  rewrite checkReferences_loop, pre_save_next.
  set (refFields := getRefFields (Document_schema this)).
  assert (Hpresent : ∀ rf,
            rf ∈ List.filter (λ rf, truthy (Document_get this (field rf))) refFields
            ↔ rf ∈ refFields ∧ truthy (Document_get this (field rf)) = true)
    by (intros rf;
        apply (elem_of_filter_bool
                 (λ rf, truthy (Document_get this (field rf))) refFields rf)).
  split.
  - intros Hok.
    assert (Hall : ∀ rf, rf ∈ refFields →
              truthy (Document_get this (field rf)) = true →
              result (validateReference (model db (refTo rf))
                        (Document_get this (field rf)) (field rf)) = Ok true).
    { apply save_loop_Ok. by destruct (result (for_of _ _)) as [[]|e]. }
    destruct (result (for_of_acc refFields [] (manual_step db (Document_get this))))
      as [results|e] eqn:Hr.
    + exists results. split; [done|].
      apply manual_loop_Ok in Hr as (new & -> & Hnew). cbn [app].
      apply (reports_all_valid _ _ _ _ Hnew).
      intros rf [Hin Htruthy]%Hpresent. by apply Hall.
    + apply manual_loop_Throw in Hr as (rf & Hin & Htruthy & Hthrow).
      rewrite (Hall rf Hin Htruthy) in Hthrow. done.
  - intros (results & Hr & Hvalid).
    apply manual_loop_Ok in Hr as (new & -> & Hnew). cbn [app] in Hvalid.
    rewrite (proj2 (save_loop_Ok db this refFields)); [done|].
    intros rf Hin Htruthy.
    apply (proj1 (reports_all_valid _ _ _ _ Hnew) Hvalid).
    by apply Hpresent.
Qed.

(** ** More on the update path *)

Section UpdateOutcome.

Variable options : ReferenceCheckOptions option.
Variable db : Connection.
Variable this : QueryThis.
Variable payload : gmap string Value.
Variable id : ObjectId.
Hypothesis Hpayload : getUpdate this = Some payload.

Let refFields := getRefFields (schema (Query_model this)).
Let shadow := as_document (Query_model this) id payload.

Lemma pre_update_next :
  (pre_update options db this).2
  = match result (for_of refFields (save_step db shadow)) with
    | Ok _ => Proceed
    | Throw e => Abort e
    end.
Proof.
  unfold pre_update. rewrite Hpayload. fold refFields.
  case_bool_decide as Hnone.
  - apply length_zero_iff_nil in Hnone. by rewrite Hnone.
  - apply (logged_loop_next options).
Qed.

Lemma pre_update_db_calls :
  db_calls (pre_update options db this).1
  = events (for_of refFields (save_step db shadow)).
Proof.
  rewrite <- for_of_db_calls.
  2:{ intros rf. rewrite save_step_events. unfold lookups.
      destruct (truthy _); [apply validateReference_db_calls | done]. }
  unfold pre_update. rewrite Hpayload. fold refFields.
  case_bool_decide as Hnone.
  - apply length_zero_iff_nil in Hnone. by rewrite Hnone.
  - apply (logged_loop_db_calls options).
Qed.

End UpdateOutcome.

(** X9. An update is checked like a save of its payload: the update
    middleware ends the same way, and asks the driver the same questions in
    the same order, as the save middleware run on a document of the same
    schema whose fields are the payload. *)
Theorem update_checked_like_save (options : ReferenceCheckOptions option)
    (db : Connection) (this : QueryThis) (payload : gmap string Value)
    (id : ObjectId) :
  getUpdate this = Some payload →
  (pre_update options db this).2
  = (pre_save options db (as_document (Query_model this) id payload)).2
  ∧ db_calls (pre_update options db this).1
    = db_calls (pre_save options db (as_document (Query_model this) id payload)).1.
Proof.
  intros Hpayload.
  rewrite (pre_update_next options db this payload id Hpayload).
  rewrite (pre_update_db_calls options db this payload id Hpayload).
  by rewrite pre_save_next, pre_save_db_calls.
Qed.

Lemma update_checked_like_save_witness :
  (pre_update Fixture.defaults Fixture.db Fixture.retarget).2
  = (pre_save Fixture.defaults Fixture.db
       (as_document Fixture.Post Fixture.A {[ "author" := VId Fixture.C ]})).2
  ∧ db_calls (pre_update Fixture.defaults Fixture.db Fixture.retarget).1
    = db_calls (pre_save Fixture.defaults Fixture.db
                  (as_document Fixture.Post Fixture.A
                     {[ "author" := VId Fixture.C ]})).1.
Proof.
  apply (update_checked_like_save Fixture.defaults Fixture.db Fixture.retarget
           {[ "author" := VId Fixture.C ]} Fixture.A).
  reflexivity.
Defined.

(** ** More on the delete path *)

Section DeleteOutcome.

Variable options : ReferenceCheckOptions option.
Variable db : Connection.
Variable this : QueryThis.

Let name := modelName (Query_model this).
Let refModels := referencing_models db name.
Let lookup := FindOne name (getQuery this).

Lemma db_calls_cons (ev : Event) (t : list Event) :
  is_db_call ev = true → db_calls (ev :: t) = ev :: db_calls t.
Proof. intros Hev. unfold db_calls. simpl. by rewrite Hev. Qed.

Lemma scan_loop_db_calls (d : Doc) (rms : list RefModel.t) :
  db_calls (events (for_of rms (scan db d))) = events (for_of rms (scan db d)).
Proof. apply for_of_db_calls. intros rm. by rewrite scan_events. Qed.

Lemma pre_delete_found (d : Doc) (rest : list Doc) :
  find (collection (Query_model this)) (getQuery this) = inr (d :: rest) →
  (pre_delete options db this).2
  = match result (for_of refModels (scan db d)) with
    | Ok _ => Proceed
    | Throw e => Abort e
    end
  ∧ db_calls (pre_delete options db this).1
    = lookup :: events (for_of refModels (scan db d)).
Proof.
  intros Hfind.
  assert (Hbody : pre_delete options db this
    = middleware
        (log options ("Checking references before deleting from " +:+ name);;
         emit lookup;;
         if bool_decide (length refModels = 0)
         then log options "No references found, safe to delete"
         else (for_of refModels (scan db d);;
               log options "Delete validation completed successfully"))).
  { unfold pre_delete. by rewrite (findOne_found _ _ d rest Hfind). }
  rewrite Hbody. clear Hbody. rewrite <- scan_loop_db_calls.
  case_bool_decide as Hnone.
  - apply length_zero_iff_nil in Hnone. rewrite Hnone.
    async_simpl. rewrite db_calls_cons by done. by async_simpl.
  - async_simpl. rewrite db_calls_cons by done. async_simpl.
    destruct (result (for_of refModels (scan db d))) as [[]|e]; by async_simpl.
Qed.

Lemma pre_delete_none :
  find (collection (Query_model this)) (getQuery this) = inr [] →
  (pre_delete options db this).2 = Proceed
  ∧ db_calls (pre_delete options db this).1 = [lookup].
Proof.
  intros Hfind. unfold pre_delete, findOne, driver_call. rewrite Hfind.
  cbn [head]. change ([FindOne _ _], Ok None) with (emit lookup ≫= λ _, mret (@None Doc)).
  rewrite bind_assoc. async_simpl. rewrite db_calls_cons by done. by async_simpl.
Qed.

Lemma pre_delete_failed (cause : Error) :
  find (collection (Query_model this)) (getQuery this) = inl cause →
  (pre_delete options db this).2 = Abort cause
  ∧ db_calls (pre_delete options db this).1 = [lookup].
Proof.
  intros Hfind. unfold pre_delete, findOne, driver_call. rewrite Hfind.
  change ([FindOne _ _], Throw cause)
    with (emit lookup ≫= λ _, (throw cause : Async (option Doc))).
  rewrite bind_assoc. async_simpl. rewrite db_calls_cons by done. by async_simpl.
Qed.

Lemma scan_loop_pass (d : Doc) (rms : list RefModel.t) :
  (∀ rm, rm ∈ rms → result (scan_query db (_id d) rm) = Ok []) →
  events (for_of rms (scan db d)) = scan_event db (_id d) <$> rms
  ∧ result (for_of rms (scan db d)) = Ok tt.
Proof.
  intros Hpass. split; [|by apply scan_loop_result].
  induction rms as [|rm rest IH]; [done|].
  cbn [for_of]. rewrite events_bind, scan_events, scan_result.
  rewrite (Hpass rm) by left. rewrite IH; [done|].
  intros rm' Hin. apply Hpass. by right.
Qed.

Lemma pre_delete_decided (d : Doc) (rest : list Doc)
    (before : list RefModel.t) (rm : RefModel.t) (after : list RefModel.t)
    (e : Error) :
  find (collection (Query_model this)) (getQuery this) = inr (d :: rest) →
  refModels = before ++ rm :: after →
  (∀ rm', rm' ∈ before → result (scan_query db (_id d) rm') = Ok []) →
  result (scan db d rm) = Throw e →
  (pre_delete options db this).2 = Abort e
  ∧ db_calls (pre_delete options db this).1
    = lookup :: (scan_event db (_id d) <$> before ++ [rm]).
Proof.
  intros Hfind Hsplit Hbefore Hrm.
  destruct (pre_delete_found d rest Hfind) as [-> ->].
  destruct (scan_loop_pass d before Hbefore) as [Hev Hres].
  rewrite Hsplit, for_of_app. cbn [for_of].
  rewrite !result_bind, !events_bind, Hres, Hev, Hrm, scan_events.
  by rewrite app_nil_r, fmap_app.
Qed.

End DeleteOutcome.

Lemma no_elements_nil {X} (l : list X) : (∀ x, x ∉ l) → l = [].
Proof. destruct l as [|x l]; [done|]. intros H. by destruct (H x); left. Qed.

(** X10. A delete with nothing to protect proceeds after the single
    [findOne]: when the query matches no document, and when no other
    collection of the catalog declares a path annotated with the affected
    collection's name. References from the affected collection to itself
    are not looked for. *)
Theorem delete_early_exits :
  (∀ (options : ReferenceCheckOptions option) (db : Connection) (this : QueryThis),
     find (collection (Query_model this)) (getQuery this) = inr [] →
     (pre_delete options db this).2 = Proceed
     ∧ db_calls (pre_delete options db this).1
       = [FindOne (modelName (Query_model this)) (getQuery this)])
  ∧ (∀ (options : ReferenceCheckOptions option) (db : Connection)
       (this : QueryThis) (d : Doc) (rest : list Doc),
       find (collection (Query_model this)) (getQuery this) = inr (d :: rest) →
       (∀ n name path,
          n ∈ modelNames db → n ≠ modelName (Query_model this) →
          (name, path) ∈ paths (schema (model db n)) →
          options_ref path ≠ Some (modelName (Query_model this))) →
       (pre_delete options db this).2 = Proceed
       ∧ db_calls (pre_delete options db this).1
         = [FindOne (modelName (Query_model this)) (getQuery this)]).
Proof.
  split.
  - intros options db this. apply pre_delete_none.
  - intros options db this d rest Hfind Hnone.
    destruct (pre_delete_found options db this d rest Hfind) as [-> ->].
    assert (Hempty : referencing_models db (modelName (Query_model this)) = []).
    { rewrite referencing_models_omap. apply no_elements_nil.
      intros rm (n & Hn & Hsome)%list_elem_of_omap.
      apply referencing_model_Some in Hsome as (Hne & _ & Hfields).
      apply Hfields, no_elements_nil.
      intros f (path & Hin & Href)%elem_of_referencing_fields.
      by apply (Hnone n f path). }
    by rewrite Hempty.
Qed.

Lemma delete_early_exits_witness :
  ((pre_delete Fixture.defaults Fixture.db Fixture.deleteC).2 = Proceed
   ∧ db_calls (pre_delete Fixture.defaults Fixture.db Fixture.deleteC).1
     = [FindOne "User" (QById (VId Fixture.C))])
  ∧ ((pre_delete Fixture.defaults Fixture.db Fixture.deletePosts).2 = Proceed
     ∧ db_calls (pre_delete Fixture.defaults Fixture.db Fixture.deletePosts).1
       = [FindOne "Post" QAll]).
Proof.
  destruct delete_early_exits as [Hnone Hunreferenced]. split.
  - apply (Hnone Fixture.defaults Fixture.db Fixture.deleteC). reflexivity.
  - apply (Hunreferenced Fixture.defaults Fixture.db Fixture.deletePosts
             {| _id := Fixture.oid 10 "p1";
                fields := {[ "author" := VId Fixture.B ]} |} []).
    + reflexivity.
    + intros n name path Hn Hne Hin Href.
      change (modelNames Fixture.db) with ["User"; "Post"; "Order"] in Hn.
      change (modelName (Query_model Fixture.deletePosts)) with "Post" in *.
      apply elem_of_cons in Hn as [->|Hn].
      { vm_compute in Hin. set_solver. }
      apply elem_of_cons in Hn as [->|Hn]; [done|].
      apply list_elem_of_singleton in Hn as ->.
      vm_compute in Hin. set_solver.
Defined.

Lemma cannot_delete_names (id : ObjectId) (target : string) :
  contains (toString id) (message (cannot_delete id target)) = true
  ∧ contains target (message (cannot_delete id target)) = true.
Proof.
  unfold cannot_delete. cbn [message]. split.
  - apply contains_intro.
  - rewrite <- !append_assoc. rewrite append_assoc. apply contains_intro.
Qed.

(** X11. A delete is refused at the first referencing collection, in
    discovery order, whose scan finds a document: the collections before it
    were scanned and found nothing, the ones after it are not scanned, and
    the error names the identifier of the resolved document and that
    collection. *)
Theorem delete_refused_at_first_reference (options : ReferenceCheckOptions option)
    (db : Connection) (this : QueryThis) (d : Doc) (rest : list Doc)
    (before : list RefModel.t) (rm : RefModel.t) (after : list RefModel.t)
    (hit : Doc) (more : list Doc) :
  find (collection (Query_model this)) (getQuery this) = inr (d :: rest) →
  referencing_models db (modelName (Query_model this)) = before ++ rm :: after →
  (∀ rm', rm' ∈ before → result (scan_query db (_id d) rm') = Ok []) →
  result (scan_query db (_id d) rm) = Ok (hit :: more) →
  let error := cannot_delete (_id d) (RefModel.modelName rm) in
  (pre_delete options db this).2 = Abort error
  ∧ db_calls (pre_delete options db this).1
    = FindOne (modelName (Query_model this)) (getQuery this)
      :: (scan_event db (_id d) <$> before ++ [rm])
  ∧ contains (toString (_id d)) (message error) = true
  ∧ contains (RefModel.modelName rm) (message error) = true.
Proof.
  intros Hfind Hsplit Hbefore Hhit error.
  destruct (cannot_delete_names (_id d) (RefModel.modelName rm)) as [Hid Hname].
  destruct (pre_delete_decided options db this d rest before rm after error
              Hfind Hsplit Hbefore) as [Hnext Hcalls].
  { by rewrite scan_result, Hhit. }
  done.
Qed.

Lemma delete_refused_at_first_reference_witness :
  (pre_delete Fixture.defaults Fixture.db Fixture.deleteB).2
  = Abort (cannot_delete Fixture.B "Post")
  ∧ db_calls (pre_delete Fixture.defaults Fixture.db Fixture.deleteB).1
    = FindOne "User" (QById (VId Fixture.B))
      :: (scan_event Fixture.db Fixture.B
            <$> [] ++ [ {| RefModel.modelName := "Post";
                           RefModel.fields := ["author"] |} ])
  ∧ contains (toString Fixture.B)
      (message (cannot_delete Fixture.B "Post")) = true
  ∧ contains "Post" (message (cannot_delete Fixture.B "Post")) = true.
Proof.
  apply (delete_refused_at_first_reference Fixture.defaults Fixture.db
           Fixture.deleteB {| _id := Fixture.B; fields := ∅ |} []
           [] {| RefModel.modelName := "Post"; RefModel.fields := ["author"] |} []
           {| _id := Fixture.oid 10 "p1";
              fields := {[ "author" := VId Fixture.B ]} |} []).
  - reflexivity.
  - reflexivity.
  - intros rm' Hin. by apply elem_of_nil in Hin.
  - reflexivity.
Defined.

(** X12. A driver failure on the delete path aborts the delete with the
    driver's own error, not wrapped and never read as "safe to delete":
    when [findOne] fails nothing is scanned, and when a scan fails the
    later collections are not scanned. *)
Theorem delete_driver_failure_aborts :
  (∀ (options : ReferenceCheckOptions option) (db : Connection)
     (this : QueryThis) (cause : Error),
     find (collection (Query_model this)) (getQuery this) = inl cause →
     (pre_delete options db this).2 = Abort cause
     ∧ db_calls (pre_delete options db this).1
       = [FindOne (modelName (Query_model this)) (getQuery this)])
  ∧ (∀ (options : ReferenceCheckOptions option) (db : Connection)
       (this : QueryThis) (d : Doc) (rest : list Doc)
       (before : list RefModel.t) (rm : RefModel.t) (after : list RefModel.t)
       (cause : Error),
       find (collection (Query_model this)) (getQuery this) = inr (d :: rest) →
       referencing_models db (modelName (Query_model this))
       = before ++ rm :: after →
       (∀ rm', rm' ∈ before → result (scan_query db (_id d) rm') = Ok []) →
       result (scan_query db (_id d) rm) = Throw cause →
       (pre_delete options db this).2 = Abort cause
       ∧ db_calls (pre_delete options db this).1
         = FindOne (modelName (Query_model this)) (getQuery this)
           :: (scan_event db (_id d) <$> before ++ [rm])).
Proof.
  split.
  - intros options db this cause. apply pre_delete_failed.
  - intros options db this d rest before rm after cause Hfind Hsplit Hbefore Hfail.
    apply (pre_delete_decided options db this d rest before rm after cause
             Hfind Hsplit Hbefore).
    by rewrite scan_result, Hfail.
Qed.

Lemma delete_driver_failure_aborts_witness :
  (pre_delete Fixture.defaults Fixture.dbDown Fixture.deleteDown).2
  = Abort {| message := "connection refused" |}
  ∧ db_calls (pre_delete Fixture.defaults Fixture.dbDown Fixture.deleteDown).1
    = [FindOne "User" QAll].
Proof.
  destruct delete_driver_failure_aborts as [Hfind _].
  apply (Hfind Fixture.defaults Fixture.dbDown Fixture.deleteDown).
  reflexivity.
Defined.

(** ** Logging *)

Lemma log_off (options : ReferenceCheckOptions option) (line : string) :
  enableLogging (spread options) = false → log options line = mret tt.
Proof. intros Hoff. unfold log. by rewrite Hoff. Qed.

Lemma quiet_loop_events (options : ReferenceCheckOptions option)
    (before after : string) (loop : Async unit) :
  enableLogging (spread options) = false →
  (middleware (log options before;; loop;; log options after)).1 = events loop.
Proof.
  intros Hoff. rewrite !log_off by done. async_simpl.
  destruct (result loop) as [[]|e]; by async_simpl.
Qed.

Lemma pre_update_none (options : ReferenceCheckOptions option) (db : Connection)
    (this : QueryThis) :
  getUpdate this = None → pre_update options db this = ([], Proceed).
Proof. intros Hnone. unfold pre_update. by rewrite Hnone. Qed.

Lemma pre_save_quiet (options : ReferenceCheckOptions option) (db : Connection)
    (this : Document) :
  enableLogging (spread options) = false →
  db_calls (pre_save options db this).1 = (pre_save options db this).1.
Proof.
  intros Hoff. rewrite pre_save_db_calls. unfold pre_save.
  case_bool_decide as Hnone.
  - apply length_zero_iff_nil in Hnone. by rewrite Hnone.
  - symmetry. by apply quiet_loop_events.
Qed.

Lemma pre_update_quiet (options : ReferenceCheckOptions option) (db : Connection)
    (this : QueryThis) :
  enableLogging (spread options) = false →
  db_calls (pre_update options db this).1 = (pre_update options db this).1.
Proof.
  intros Hoff. destruct (getUpdate this) as [payload|] eqn:Hpayload.
  - rewrite (pre_update_db_calls options db this payload
               (modelName_id (Query_model this)) Hpayload).
    unfold pre_update. rewrite Hpayload. case_bool_decide as Hnone.
    + apply length_zero_iff_nil in Hnone. by rewrite Hnone.
    + symmetry. by apply quiet_loop_events.
  - by rewrite pre_update_none.
Qed.

Lemma pre_delete_quiet (options : ReferenceCheckOptions option) (db : Connection)
    (this : QueryThis) :
  enableLogging (spread options) = false →
  db_calls (pre_delete options db this).1 = (pre_delete options db this).1.
Proof.
  intros Hoff.
  destruct (find (collection (Query_model this)) (getQuery this))
    as [cause|[|d rest]] eqn:Hfind.
  - destruct (pre_delete_failed options db this cause Hfind) as [_ ->].
    unfold pre_delete, findOne, driver_call. rewrite Hfind, !log_off by done.
    done.
  - destruct (pre_delete_none options db this Hfind) as [_ ->].
    unfold pre_delete, findOne, driver_call. rewrite Hfind, !log_off by done.
    done.
  - destruct (pre_delete_found options db this d rest Hfind) as [_ ->].
    unfold pre_delete. rewrite (findOne_found _ _ d rest Hfind).
    rewrite !log_off by done. rewrite ret_bind, bind_Ok. cbn [fst snd].
    case_bool_decide as Hnone.
    + apply length_zero_iff_nil in Hnone. by rewrite Hnone.
    + rewrite middleware_events. unfold events at 2. cbn [fst app].
      f_equal. change (for_of ?l _) with (for_of l (scan db d)).
      match goal with |- _ = ?m.1 => change (m.1) with (events m) end.
      rewrite events_bind.
      destruct (result (for_of _ (scan db d))) as [[]|e]; by async_simpl.
Qed.

(** X13. Logging is observation only: whatever the options, each
    middleware ends the same way and asks the driver the same questions;
    and with logging off it leaves no console line at all. *)
Theorem logging_is_observation_only (options options' : ReferenceCheckOptions option)
    (db : Connection) (doc : Document) (query : QueryThis) :
  ((pre_save options db doc).2 = (pre_save options' db doc).2
   ∧ db_calls (pre_save options db doc).1 = db_calls (pre_save options' db doc).1)
  ∧ ((pre_update options db query).2 = (pre_update options' db query).2
     ∧ db_calls (pre_update options db query).1
       = db_calls (pre_update options' db query).1)
  ∧ ((pre_delete options db query).2 = (pre_delete options' db query).2
     ∧ db_calls (pre_delete options db query).1
       = db_calls (pre_delete options' db query).1)
  ∧ (enableLogging (spread options) = false →
     db_calls (pre_save options db doc).1 = (pre_save options db doc).1
     ∧ db_calls (pre_update options db query).1 = (pre_update options db query).1
     ∧ db_calls (pre_delete options db query).1 = (pre_delete options db query).1).
Proof.
  split_and!.
  - by rewrite !pre_save_next.
  - by rewrite !pre_save_db_calls.
  - destruct (getUpdate query) as [payload|] eqn:Hpayload.
    + by rewrite !(pre_update_next _ db query payload
                     (modelName_id (Query_model query)) Hpayload).
    + by rewrite !pre_update_none.
  - destruct (getUpdate query) as [payload|] eqn:Hpayload.
    + by rewrite !(pre_update_db_calls _ db query payload
                     (modelName_id (Query_model query)) Hpayload).
    + by rewrite !pre_update_none.
  - destruct (find (collection (Query_model query)) (getQuery query))
      as [cause|[|d rest]] eqn:Hfind.
    + destruct (pre_delete_failed options db query cause Hfind) as [-> _].
      by destruct (pre_delete_failed options' db query cause Hfind) as [-> _].
    + destruct (pre_delete_none options db query Hfind) as [-> _].
      by destruct (pre_delete_none options' db query Hfind) as [-> _].
    + destruct (pre_delete_found options db query d rest Hfind) as [-> _].
      by destruct (pre_delete_found options' db query d rest Hfind) as [-> _].
  - destruct (find (collection (Query_model query)) (getQuery query))
      as [cause|[|d rest]] eqn:Hfind.
    + destruct (pre_delete_failed options db query cause Hfind) as [_ ->].
      by destruct (pre_delete_failed options' db query cause Hfind) as [_ ->].
    + destruct (pre_delete_none options db query Hfind) as [_ ->].
      by destruct (pre_delete_none options' db query Hfind) as [_ ->].
    + destruct (pre_delete_found options db query d rest Hfind) as [_ ->].
      by destruct (pre_delete_found options' db query d rest Hfind) as [_ ->].
  - intros Hoff.
    split_and!; [by apply pre_save_quiet | by apply pre_update_quiet
                | by apply pre_delete_quiet].
Qed.

(** ** Registration *)

Lemma run_pre_single {T}
    (hook : Connection → T → list Event * Next) (op : Operation)
    (db : Connection) (this : T) :
  run_pre [(op, hook)] op db this = hook db this.
Proof.
  simpl. rewrite decide_True by done.
  destruct (hook db this) as [t [|e]]; [by rewrite app_nil_r | done].
Qed.

Lemma run_pre_app {T}
    (hooks hooks' : list (Operation * (Connection → T → list Event * Next)))
    (op : Operation) (db : Connection) (this : T) :
  op ∉ hooks.*1 →
  run_pre (hooks ++ hooks') op db this = run_pre hooks' op db this.
Proof.
  induction hooks as [|[op' hook] rest IH]; intros Hop; simpl; [done|].
  rewrite fmap_cons, not_elem_of_cons in Hop. destruct Hop as [Hne Hrest].
  rewrite decide_False by done. by apply IH.
Qed.

Lemma run_pre_registered {T}
    (hook : Connection → T → list Event * Next) (ops : list Operation)
    (rest : list (Operation * (Connection → T → list Event * Next)))
    (op : Operation) (db : Connection) (this : T) :
  NoDup ops → op ∈ ops → op ∉ rest.*1 →
  run_pre (((λ op, (op, hook)) <$> ops) ++ rest) op db this = hook db this.
Proof.
  induction ops as [|op' ops IH]; intros Hnodup Hop Hrest;
    [by apply elem_of_nil in Hop|].
  apply NoDup_cons in Hnodup as [Hfresh Hnodup]. rewrite fmap_cons.
  cbn [app run_pre]. destruct (decide (op' = op)) as [->|Hne].
  - rewrite run_pre_unregistered.
    + destruct (hook db this) as [t [|e]]; [by rewrite app_nil_r | done].
    + rewrite fmap_app, not_elem_of_app. split; [|done].
      rewrite <- list_fmap_compose. by rewrite list_fmap_id.
  - apply IH; [done| |done].
    apply elem_of_cons in Hop as [->|Hop]; done.
Qed.

(** X14. When the flag of a path is on (as it is by default), each
    operation of that path runs exactly the middleware of the path, once:
    [save] the save middleware; [findOneAndUpdate], [updateOne] and
    [updateMany] the update middleware; [deleteOne], [findOneAndDelete] and
    [deleteMany] the delete middleware. *)
Theorem enabled_path_runs_its_middleware (options : ReferenceCheckOptions option)
    (path : Path) (op : Operation) (db : Connection) (doc : Document)
    (query : QueryThis) :
  enabled (spread options) path = true →
  op ∈ operations path →
  match path with
  | SavePath =>
      run_pre (pre_document (ReferenceCheck options)) op db doc
      = pre_save options db doc
  | UpdatePath =>
      run_pre (pre_query (ReferenceCheck options)) op db query
      = pre_update options db query
  | DeletePath =>
      run_pre (pre_query (ReferenceCheck options)) op db query
      = pre_delete options db query
  end.
Proof.
  intros Hon Hop. unfold ReferenceCheck.
  destruct path; cbn [enabled] in Hon; cbn [operations] in Hop;
    cbn [pre_document pre_query]; rewrite Hon.
  - apply list_elem_of_singleton in Hop as ->. apply run_pre_single.
  - apply run_pre_registered; [|done|].
    + unfold updateOperations. repeat constructor; set_solver.
    + unfold updateOperations in Hop.
      destruct (enableDelete (spread options)); cbn; set_solver.
  - rewrite run_pre_app.
    + rewrite <- (app_nil_r (_ <$> deleteOperations)).
      apply run_pre_registered; [|done|apply not_elem_of_nil].
      unfold deleteOperations. repeat constructor; set_solver.
    + unfold deleteOperations in Hop.
      destruct (enableUpdate (spread options)); cbn; set_solver.
Qed.

Lemma enabled_path_runs_its_middleware_witness :
  run_pre (pre_query (ReferenceCheck Fixture.defaults)) deleteMany
    Fixture.db Fixture.deleteAll
  = pre_delete Fixture.defaults Fixture.db Fixture.deleteAll.
Proof.
  apply (enabled_path_runs_its_middleware Fixture.defaults DeletePath deleteMany
           Fixture.db Fixture.draft Fixture.deleteAll).
  - reflexivity.
  - simpl. right. right. left.
Defined.

(** ** More on the extractors *)

(** X15. Everything the JavaScript extractor reports, the typed extractor
    reports too, in the same order: the first is a sublist of the second. *)
Theorem legacy_extraction_is_sublist (schema : Schema) :
  Legacy.getRefFields schema `sublist_of` getRefFields schema.
Proof.
  rewrite Legacy_getRefFields_direct, getRefFields_extract. unfold extract.
  induction (paths schema) as [|[name path] rest IH]; [done|].
  cbn [flat_map]. apply sublist_app; [|done].
  apply sublist_inserts_r. done.
Qed.

(** X16. Extraction works path by path: the entries of a schema are those
    of its first paths followed by those of the remaining ones, so a path
    added to a schema leaves the entries of the others, and their order,
    as they were. *)
Theorem extraction_is_per_path (ps ps' : list (string * SchemaType)) :
  getRefFields {| paths := ps ++ ps' |}
  = getRefFields {| paths := ps |} ++ getRefFields {| paths := ps' |}
  ∧ Legacy.getRefFields {| paths := ps ++ ps' |}
    = Legacy.getRefFields {| paths := ps |} ++ Legacy.getRefFields {| paths := ps' |}.
Proof.
  rewrite !getRefFields_extract, !Legacy_getRefFields_direct. unfold extract.
  cbn [paths]. by rewrite !flat_map_app.
Qed.

Lemma filter_target_direct_entry (target name : string) (path : SchemaType) :
  target ≠ "" →
  field <$> List.filter (λ rf, bool_decide (refTo rf = target))
              (direct_entry name path)
  = if decide (options_ref path = Some target) then [name] else [].
Proof.
  intros Hne. unfold direct_entry, ref_of.
  destruct (options_ref path) as [r|]; [|by rewrite decide_False].
  destruct (decide (r = "")) as [->|Hr].
  - rewrite decide_False; [done|]. by intros [= <-].
  - cbn [List.filter refTo]. case_bool_decide as Hr'.
    + subst r. by rewrite decide_True.
    + rewrite decide_False; [done|]. by intros [= ->].
Qed.

(** X17. For a collection with a non-empty name, discovery lists for a
    model exactly the fields the JavaScript extractor reports for its
    schema with that collection as target, in the same order. *)
Theorem discovery_matches_direct_extraction (deletingModelName : string)
    (model : Model) :
  deletingModelName ≠ "" →
  referencing_fields deletingModelName model
  = field <$> List.filter (λ rf, bool_decide (refTo rf = deletingModelName))
                (Legacy.getRefFields (schema model)).
Proof.
  intros Hne. rewrite Legacy_getRefFields_direct. unfold referencing_fields.
  rewrite (fold_left_push_flat_map
             (λ '(name, path),
                if decide (options_ref path = Some deletingModelName)
                then [name] else [])).
  2:{ intros acc [name path]. unfold push.
      case_decide; [done | by rewrite app_nil_r]. }
  rewrite app_nil_l.
  induction (paths (schema model)) as [|[name path] rest IH]; [done|].
  cbn [flat_map]. rewrite List.filter_app, fmap_app, <- IH.
  by rewrite filter_target_direct_entry.
Qed.

Lemma discovery_matches_direct_extraction_witness :
  referencing_fields "User" Fixture.Post
  = field <$> List.filter (λ rf, bool_decide (refTo rf = "User"))
                (Legacy.getRefFields (schema Fixture.Post)).
Proof.
  apply (discovery_matches_direct_extraction "User" Fixture.Post).
  discriminate.
Defined.

(** ** The middleware of [index.js] *)

Lemma Legacy_getRefFields_flat (schema : Schema) :
  (∀ name path, (name, path) ∈ paths schema → nested_entries name path = []) →
  Legacy.getRefFields schema = getRefFields schema.
Proof.
  intros Hflat.
  rewrite Legacy_getRefFields_direct, getRefFields_extract. unfold extract.
  induction (paths schema) as [|[name path] rest IH]; [done|]. simpl.
  rewrite (Hflat name path), app_nil_r by left.
  f_equal. apply IH. intros ? ? ?. apply Hflat. by right.
Qed.

Lemma bind_as_bool {Y} (m : Async Legacy.Answer) (k : bool → Async Y) :
  m ≫= (λ a, k (Legacy.answer_truthy a)) = as_bool m ≫= k.
Proof. by destruct m as [t [a|e]]. Qed.

Lemma legacy_save_step_agrees (db : Connection) (this : Document) (rf : RefField) :
  nonempty_array (Document_get this (field rf)) = false →
  legacy_save_step db (Document_get this) rf = save_step db this rf.
Proof.
  intros Hscalar. unfold legacy_save_step, save_step.
  destruct (truthy (Document_get this (field rf))); [|done]. cbn [negb].
  rewrite (bind_as_bool _
             (λ isValid, if negb isValid
                         then throw (reference_validation_failed
                                       (Document_get this (field rf)) (refTo rf))
                         else mret tt)).
  rewrite Legacy_validateReference_scalar; [done|].
  intros items Hitems. rewrite Hitems in Hscalar. by destruct items.
Qed.

(** X18. On a schema without references nested in array fields, the
    save and update middleware of [index.js] behave exactly like those of
    [src/index.ts] (same events, same end) whenever no reference field
    holds a non-empty array. *)
Theorem legacy_middleware_agrees :
  (∀ (options : ReferenceCheckOptions option) (db : Connection) (this : Document),
     (∀ name path, (name, path) ∈ paths (Document_schema this) →
                   nested_entries name path = []) →
     (∀ rf, rf ∈ getRefFields (Document_schema this) →
            nonempty_array (Document_get this (field rf)) = false) →
     LegacyPlugin.pre_save options db this = pre_save options db this)
  ∧ (∀ (options : ReferenceCheckOptions option) (db : Connection)
       (this : QueryThis) (payload : gmap string Value),
       getUpdate this = Some payload →
       (∀ name path, (name, path) ∈ paths (schema (Query_model this)) →
                     nested_entries name path = []) →
       (∀ rf, rf ∈ getRefFields (schema (Query_model this)) →
              nonempty_array (get payload (field rf)) = false) →
       LegacyPlugin.pre_update options db this = pre_update options db this).
Proof.
  split.
  - intros options db this Hflat Hscalar.
    unfold LegacyPlugin.pre_save, pre_save.
    rewrite (Legacy_getRefFields_flat _ Hflat).
    case_bool_decide; [done|].
    change (for_of ?l (λ fieldObj, _) ≫= ?k)
      with (for_of l (legacy_save_step db (Document_get this)) ≫= k) at 1.
    rewrite (for_of_ext _ (legacy_save_step db (Document_get this))
               (save_step db this)); [done|].
    intros rf Hrf. by apply legacy_save_step_agrees, Hscalar.
  - intros options db this payload Hpayload Hflat Hscalar.
    unfold LegacyPlugin.pre_update, pre_update.
    rewrite Hpayload, (Legacy_getRefFields_flat _ Hflat).
    case_bool_decide; [done|].
    set (shadow := as_document (Query_model this)
                     (modelName_id (Query_model this)) payload).
    change (for_of ?l (λ fieldObj, _) ≫= ?k)
      with (for_of l (legacy_save_step db (Document_get shadow)) ≫= k) at 1.
    rewrite (for_of_ext _ (legacy_save_step db (Document_get shadow))
               (save_step db shadow)); [done|].
    intros rf Hrf. by apply legacy_save_step_agrees, Hscalar.
Qed.

Lemma legacy_middleware_agrees_witness :
  LegacyPlugin.pre_save Fixture.logging Fixture.db Fixture.draft
  = pre_save Fixture.logging Fixture.db Fixture.draft.
Proof.
  destruct legacy_middleware_agrees as [Hsave _].
  apply (Hsave Fixture.logging Fixture.db Fixture.draft).
  - intros name path Hin. vm_compute in Hin.
    repeat (apply elem_of_cons in Hin as [[= -> ->]|Hin]; [reflexivity|]).
    by apply elem_of_nil in Hin.
  - intros rf Hrf. vm_compute in Hrf.
    apply list_elem_of_singleton in Hrf as ->. reflexivity.
Defined.

(** X19. The two manual methods of [index.js] agree with each other as
    those of [src/index.ts] do: on a document and a data object that hold
    the same values under the reference fields, they are the same
    computation. *)
Theorem legacy_manual_methods_agree (db : Connection) (D : Document) (M : Model)
    (data : gmap string Value) :
  Document_schema D = schema M →
  (∀ rf, rf ∈ Legacy.getRefFields (schema M) →
         get data (field rf) = Document_get D (field rf)) →
  LegacyPlugin.checkReferences db D = LegacyPlugin.validateReferences db M data.
Proof.
  intros Hschema Hagree.
  unfold LegacyPlugin.checkReferences, LegacyPlugin.validateReferences.
  rewrite Hschema. apply for_of_acc_ext. intros rf acc Hrf. cbv beta zeta.
  by rewrite (Hagree rf Hrf).
Qed.

Lemma legacy_manual_methods_agree_witness :
  LegacyPlugin.checkReferences Fixture.db Fixture.draft
  = LegacyPlugin.validateReferences Fixture.db Fixture.Post
      {[ "author" := VId Fixture.C ]}.
Proof.
  apply (legacy_manual_methods_agree Fixture.db Fixture.draft Fixture.Post
           {[ "author" := VId Fixture.C ]}).
  - reflexivity.
  - intros rf Hrf. vm_compute in Hrf.
    apply list_elem_of_singleton in Hrf as ->. reflexivity.
Defined.

(** ** The lookups of a save or an update *)

Lemma save_loop_prefix (db : Connection) (this : Document) (fs : list RefField) :
  ∃ n, events (for_of fs (save_step db this))
       = flat_map (lookups db (Document_get this)) (take n fs).
Proof.
  induction fs as [|rf rest [n IH]]; [by exists 0|].
  cbn [for_of]. rewrite events_bind, save_step_events.
  destruct (result (save_step db this rf)) as [[]|e].
  - exists (S n). cbn [take flat_map]. by rewrite IH.
  - exists 1. cbn [take flat_map]. by rewrite take_0.
Qed.

(** X20. The lookups of a save, and of an update, are those of an initial
    segment of the reference fields in extraction order, one validator
    call per field that holds a value: a field without a value, or one the
    payload does not mention, causes no lookup, and nothing is looked up
    out of order. *)
Theorem lookups_follow_extraction_order (options : ReferenceCheckOptions option)
    (db : Connection) :
  (∀ this : Document,
     ∃ n, db_calls (pre_save options db this).1
          = flat_map (lookups db (Document_get this))
              (take n (getRefFields (Document_schema this))))
  ∧ (∀ (this : QueryThis),
       ∃ n, db_calls (pre_update options db this).1
            = flat_map (lookups db (get (default ∅ (getUpdate this))))
                (take n (getRefFields (schema (Query_model this))))).
Proof.
  split.
  - intros this. rewrite pre_save_db_calls. apply save_loop_prefix.
  - intros this. destruct (getUpdate this) as [payload|] eqn:Hpayload.
    + rewrite (pre_update_db_calls options db this payload
                 (modelName_id (Query_model this)) Hpayload).
      apply (save_loop_prefix db
               (as_document (Query_model this)
                  (modelName_id (Query_model this)) payload)).
    + exists 0. by rewrite pre_update_none.
Qed.
